(** * Travelers: chunked world generation (src/world)

    A shallow embedding of the world generator of the Travelers game:
    the schematic asset (schematic.rs), the interior wave function collapse
    (wfc.rs), the edge stitcher (stitcher.rs) and the chunk systems of
    world/mod.rs.

    Modelling conventions.
    - A tile identifier ([u8]) is a [nat] below 256; [x as u8] is [x mod 256].
    - A [HashSet<u8>] is the list of its elements in iteration order.  The
      iteration order of a std [HashSet] is fixed by its [RandomState], whose
      keys are drawn from the operating system per process; it is modelled by
      a list [rs] (a permutation of the 256 byte values) and a set built by
      [collect] lists its elements in the order of [rs].  [retain] keeps the
      order of the remaining elements.
    - A [HashMap<u8, TileSchematic>] is an association list in its iteration
      order (keys are unique); indexing a missing key panics.
    - A panic is [None] (for single steps) or [Panic] (for whole runs).
    - [StdRng::seed_from_u64(h).gen_range(0..n)] is [seeded_gen h n mod n]
      for an arbitrary [seeded_gen]; every in-range draw function has this
      form.  [thread_rng().gen_range(0..n)] at its [k]-th use is
      [thread_gen k mod n].  An empty range panics.
    - [DefaultHasher] applied to an [i64] is an arbitrary function [hasher].
    - Float translations of spawned entities are integral in this code and
      are modelled by [Z]; [(f - 16.0) as i64] is then [f - 16]. *)

From stdpp Require Import base list options.
From Stdlib Require Import ZArith QArith Qround Lia.
From Stdlib Require Strings.String.
Close Scope Q_scope.

(* ------------------------------------------------------------------ *)
(** ** Constants (world/mod.rs) *)

Definition CHUNK_TILE_LENGTH : nat := 8.
Definition TILE_SIZE : Z := 32.
Definition CHUNK_SIZE : Z := Z.of_nat CHUNK_TILE_LENGTH * TILE_SIZE.
Definition RENDER_DISTANCE : Z := 2.

(** The number of stitched ring cells, [4 * CHUNK_TILE_LENGTH + 4]. *)
Definition RING_LENGTH : nat := 4 * CHUNK_TILE_LENGTH + 4.

(* ------------------------------------------------------------------ *)
(** ** Machine integers *)

Definition wrap_i64 (z : Z) : Z := ((z + 2 ^ 63) mod 2 ^ 64 - 2 ^ 63)%Z.

(** [u64 as i64]. *)
Definition u64_as_i64 (z : Z) : Z := wrap_i64 z.

(** [n as u8] for a length. *)
Definition as_u8 (n : nat) : nat := n mod 256.

(* ------------------------------------------------------------------ *)
(** ** Schematic (world/schematic.rs) *)

Record TileSchematic := {
  name : String.string;
  sheet : String.string;
  weight : nat;
  north : list nat;
  east : list nat;
  south : list nat;
  west : list nat
}.

Record SchematicAsset := {
  not_found : nat;
  tiles : list (nat * TileSchematic)
}.

(** [schematic.tiles[&id]]: [None] is the panic of a missing key. *)
Fixpoint assoc_lookup {V} (m : list (nat * V)) (k : nat) : option V :=
  match m with
  | [] => None
  | (k', v) :: m' => if Nat.eqb k k' then Some v else assoc_lookup m' k
  end.

Definition sch_lookup (sch : SchematicAsset) (id : nat) : option TileSchematic :=
  assoc_lookup (tiles sch) id.

Definition sch_keys (sch : SchematicAsset) : list nat := map fst (tiles sch).

(** A loop whose body may panic ([None]). *)
Fixpoint foldM {A B} (f : A -> B -> option A) (l : list B) (a : A) : option A :=
  match l with
  | [] => Some a
  | b :: l' => match f a b with Some a' => foldM f l' a' | None => None end
  end.

(** [str::parse::<u8>] on the digits after an optional sign: each byte
    must be an ASCII digit and the value, accumulated with checked
    arithmetic, must stay below 256. *)
Fixpoint parse_digits (acc : nat) (s : String.string) : option nat :=
  match s with
  | String.EmptyString => Some acc
  | String.String c s' =>
      let b := Ascii.nat_of_ascii c in
      if (48 <=? b) && (b <=? 57) then
        let acc' := acc * 10 + (b - 48) in
        if acc' <? 256 then parse_digits acc' s' else None
      else None
  end.

(** [str::parse::<u8>]: [None] is the [Err] of an empty string, of a lone
    sign, of a byte that is not a digit (a ['-'] included: [u8] is unsigned)
    and of an overflow; one leading ['+'] (byte 43) is skipped. *)
Definition parse_u8 (s : String.string) : option nat :=
  match s with
  | String.EmptyString => None
  | String.String c rest =>
      if Ascii.nat_of_ascii c =? 43 then
        match rest with
        | String.EmptyString => None
        | _ => parse_digits 0 rest
        end
      else parse_digits 0 s
  end.

(** [HashMap::insert] on an association list: an existing key keeps its
    place and gets the new value, a new key is added. *)
Definition hm_insert {V} (k : nat) (v : V) (m : list (nat * V)) : list (nat * V) :=
  if existsb (fun kv => Nat.eqb (fst kv) k) m
  then map (fun kv => if Nat.eqb (fst kv) k then (k, v) else kv) m
  else m ++ [(k, v)].

(** The body of [SchematicLoader::load] after a successful
    deserialisation: [not_found] is copied, and every entry of the
    [HashMap<String, TileSchematic>] (in its iteration order, keys distinct)
    is inserted under [key.parse::<u8>().unwrap()]; [None] is the panic of
    the [unwrap]. *)
Definition schematic_load (data_not_found : nat)
    (data_tiles : list (String.string * TileSchematic)) : option SchematicAsset :=
  cnv ← foldM (fun m kv => k ← parse_u8 (fst kv) ; Some (hm_insert k (snd kv) m))
              data_tiles [] ;
  Some {| not_found := data_not_found; tiles := cnv |}.

(** [Vec<u8>::contains]. *)
Definition vec_contains (v : list nat) (x : nat) : bool := existsb (Nat.eqb x) v.

(** [set.retain(|&x| allowed.contains(&x))]. *)
Definition retain_allowed (allowed : list nat) (s : list nat) : list nat :=
  filter (fun x => vec_contains allowed x = true) s.

(** A [HashSet<u8>] collected from [keys], in the iteration order [rs]. *)
Definition hs_collect (rs : list nat) (keys : list nat) : list nat :=
  filter (fun x => vec_contains keys x = true) rs.

(** [rng.gen_range(0..n)] with [n] already a [u8]: an empty range panics. *)
Definition gen_range (draw : nat) (n : nat) : option nat :=
  if Nat.eqb n 0 then None else Some (draw mod n).

(* ------------------------------------------------------------------ *)
(** ** Grids *)

(** Reading [v[x][y]] of a [Vec<Vec<T>>]; the loops of the code only read
    in range. *)
Definition cell {A} (dflt : A) (g : list (list A)) (x y : nat) : A :=
  match g !! x with
  | Some row => match row !! y with Some a => a | None => dflt end
  | None => dflt
  end.

(** Writing [v[x][y] = a]. *)
Definition set_cell {A} (g : list (list A)) (x y : nat) (a : A) : list (list A) :=
  match g !! x with
  | Some row => <[x := <[y := a]> row]> g
  | None => g
  end.

(** The raster order of the loops [for x in 0..L { for y in 0..L { .. } }]. *)
Definition raster : list (nat * nat) :=
  flat_map (fun x => map (fun y => (x, y)) (seq 0 CHUNK_TILE_LENGTH))
           (seq 0 CHUNK_TILE_LENGTH).

(** The outcome of a loop run: its result, a panic, or fuel exhausted. *)
Inductive res (A : Type) : Type :=
| Done (a : A)
| Panic
| NoFuel.
Arguments Done {A} a.
Arguments Panic {A}.
Arguments NoFuel {A}.

(* ------------------------------------------------------------------ *)
(** ** Interior wave function collapse (world/wfc.rs) *)

Definition Coords : Type := (Z * Z)%type.

(** [Option<(u8, u8)>]: the tile identifier and a constant [1]. *)
Definition Cell : Type := option (nat * nat).

(** [WaveFunctionCollapse]. *)
Record Wfc := {
  hash : Z;
  coords : Coords;
  schematic : SchematicAsset;
  constraint_map : list (list (list nat));
  wfc_tiles : list (list Cell)
}.

Definition with_constraint_map (st : Wfc) (cm : list (list (list nat))) : Wfc :=
  {| hash := hash st; coords := coords st; schematic := schematic st;
     constraint_map := cm; wfc_tiles := wfc_tiles st |}.

Definition with_tiles (st : Wfc) (t : list (list Cell)) : Wfc :=
  {| hash := hash st; coords := coords st; schematic := schematic st;
     constraint_map := constraint_map st; wfc_tiles := t |}.

Definition tile_at (t : list (list Cell)) (x y : nat) : Cell := cell None t x y.
Definition dom_at (cm : list (list (list nat))) (x y : nat) : list nat := cell [] cm x y.

(** One directional restriction: [if let Some(nb) = tiles[..] { let allowed =
    schematic.tiles[&nb.0].dir.clone(); set.retain(..) }]. *)
Definition restrict (sch : SchematicAsset) (dir : TileSchematic -> list nat)
    (nb : Cell) (d : list nat) : option (list nat) :=
  match nb with
  | Some (id, _) =>
      match sch_lookup sch id with
      | Some ts => Some (retain_allowed (dir ts) d)
      | None => None
      end
  | None => Some d
  end.

(** The body of the loops of [update_constraint_map] at [(x, y)]; [x] and [y]
    are [i64] there, so [x - 1 >= 0] is [1 <= x]. *)
Definition update_cell (sch : SchematicAsset) (t : list (list Cell)) (x y : nat)
    (d : list nat) : option (list nat) :=
  match tile_at t x y with
  | Some _ => Some []
  | None =>
      d1 ← (if (0 <=? Z.of_nat x - 1)%Z then restrict sch east (tile_at t (x - 1) y) d
            else Some d) ;
      d2 ← (if (0 <=? Z.of_nat y - 1)%Z then restrict sch north (tile_at t x (y - 1)) d1
            else Some d1) ;
      d3 ← (if x + 1 <? CHUNK_TILE_LENGTH then restrict sch west (tile_at t (x + 1) y) d2
            else Some d2) ;
      (if y + 1 <? CHUNK_TILE_LENGTH then restrict sch south (tile_at t x (y + 1)) d3
       else Some d3)
  end.

(** [WaveFunctionCollapse::update_constraint_map]. *)
Definition update_constraint_map (st : Wfc) : option Wfc :=
  cm ← foldM (fun cm '(x, y) =>
                d ← update_cell (schematic st) (wfc_tiles st) x y (dom_at cm x y) ;
                Some (set_cell cm x y d))
             raster (constraint_map st) ;
  Some (with_constraint_map st cm).

(** One step of the scan of [lowest_entropy]. *)
Definition entropy_step (cm : list (list (list nat)))
    (acc : option (nat * nat) * nat) (xy : nat * nat) : option (nat * nat) * nat :=
  let '(index, lowest) := acc in
  let '(x, y) := xy in
  let n_constraints := length (dom_at cm x y) in
  if (0 <? n_constraints) && ((lowest =? 0) || (n_constraints <? lowest))
  then (Some (x, y), n_constraints)
  else (index, lowest).

(** [WaveFunctionCollapse::lowest_entropy]. *)
Definition lowest_entropy (st : Wfc) : option (nat * nat) :=
  fst (fold_left (entropy_step (constraint_map st)) raster (None, 0)).

(** [get_hash]: [(coords.0 + coords.1 + world_seed as i64).hash(..)], with
    wrapping [i64] additions. *)
Definition get_hash (hasher : Z -> Z) (world_seed : Z) (c : Coords) : Z :=
  hasher (wrap_i64 (wrap_i64 (fst c + snd c) + u64_as_i64 world_seed)).

Section Interior.

(** [DefaultHasher] over an [i64]. *)
Variable hasher : Z -> Z.
(** [StdRng::seed_from_u64(h).gen_range(0..n)] is [seeded_gen h n mod n]. *)
Variable seeded_gen : Z -> nat -> nat.
(** Iteration order of the [HashSet<u8>] built by [init_constraints]. *)
Variable rs : list nat.

(** [init_constraints]: the schematic's keys collected into a [HashSet]. *)
Definition init_constraints (sch : SchematicAsset) : list nat :=
  hs_collect rs (sch_keys sch).

(** [WaveFunctionCollapse::init]. *)
Definition wfc_init (world_seed : Z) (sch : SchematicAsset) (c : Coords) : Wfc :=
  {| hash := get_hash hasher world_seed c;
     coords := c;
     schematic := sch;
     constraint_map :=
       repeat (repeat (init_constraints sch) CHUNK_TILE_LENGTH) CHUNK_TILE_LENGTH;
     wfc_tiles := repeat (repeat None CHUNK_TILE_LENGTH) CHUNK_TILE_LENGTH |}.

(** [WaveFunctionCollapse::scratch]. *)
Definition scratch (st : Wfc) : option (nat * nat) :=
  let keys := sch_keys (schematic st) in
  let n := as_u8 (length keys) in
  idx ← gen_range (seeded_gen (hash st) n) n ;
  k ← keys !! idx ;
  Some (k, 1).

(** [WaveFunctionCollapse::collapse_tile]. *)
Definition collapse_tile (st : Wfc) (idx : nat * nat) : option (nat * nat) :=
  let available := dom_at (constraint_map st) (fst idx) (snd idx) in
  let n := as_u8 (length available) in
  rand ← gen_range (seeded_gen (hash st) n) n ;
  v ← available !! rand ;
  Some (v, 1).

(** The [while has_next] loop of [WaveFunctionCollapse::collapse], with fuel. *)
Fixpoint collapse_loop (fuel : nat) (st : Wfc) : res Wfc :=
  match fuel with
  | O => NoFuel
  | S fuel' =>
      match lowest_entropy st with
      | Some next =>
          match collapse_tile st next with
          | Some t =>
              let st1 := with_tiles st (set_cell (wfc_tiles st) (fst next) (snd next) (Some t)) in
              match update_constraint_map st1 with
              | Some st2 => collapse_loop fuel' st2
              | None => Panic
              end
          | None => Panic
          end
      | None =>
          match update_constraint_map st with
          | Some st2 => Done st2
          | None => Panic
          end
      end
  end.

(** [WaveFunctionCollapse::collapse] run with [fuel] loop iterations. *)
Definition collapse_fuel (fuel : nat) (st : Wfc) : res Wfc :=
  match scratch st with
  | Some t => collapse_loop fuel (with_tiles st (set_cell (wfc_tiles st) 0 0 (Some t)))
  | None => Panic
  end.

(** The loop makes at most [L * L] collapsing iterations and one last one. *)
Definition collapse_bound : nat := CHUNK_TILE_LENGTH * CHUNK_TILE_LENGTH + 1.

(** [WaveFunctionCollapse::collapse]. *)
Definition collapse (st : Wfc) : res Wfc := collapse_fuel collapse_bound st.

(** [init] followed by [collapse]: the interior grid of a chunk. *)
Definition generate (world_seed : Z) (sch : SchematicAsset) (c : Coords)
    : res (list (list Cell)) :=
  match collapse (wfc_init world_seed sch c) with
  | Done st => Done (wfc_tiles st)
  | Panic => Panic
  | NoFuel => NoFuel
  end.

End Interior.

(* ------------------------------------------------------------------ *)
(** ** Edge stitcher (world/stitcher.rs) *)

(** [Option::is_some]. *)
Definition is_some {A} (o : option A) : bool :=
  match o with Some _ => true | None => false end.

(** The [Tile] component. *)
Record Tile := { texture_id : nat }.

(** A [Transform], by its (integral) translation [(x, y)]. *)
Definition Transform : Type := (Z * Z)%type.

(** [Adjacencies]: the tiles of the chunks to the north, east, south and
    west, when present (the fields [.0] .. [.3] of the tuple). *)
Record Adjacencies := {
  adj_north : option (list (Tile * Transform));
  adj_east : option (list (Tile * Transform));
  adj_south : option (list (Tile * Transform));
  adj_west : option (list (Tile * Transform))
}.

(** [get_perimeter_world_coord] (world/mod.rs). *)
Definition get_perimeter_world_coord (c : Coords) (side rank : Z) : Coords :=
  match side with
  | 0%Z => (fst c - TILE_SIZE + rank * TILE_SIZE, snd c + CHUNK_SIZE)%Z
  | 1%Z => (fst c + CHUNK_SIZE, snd c + CHUNK_SIZE - rank * TILE_SIZE)%Z
  | 2%Z => (fst c + CHUNK_SIZE - rank * TILE_SIZE, snd c - TILE_SIZE)%Z
  | _ => (fst c - TILE_SIZE, snd c - TILE_SIZE + rank * TILE_SIZE)%Z
  end.

(** [(transform.translation.x - (TILE_SIZE as f32 / 2.)) as i64], and [y]. *)
Definition tr_x (tr : Transform) : Z := (fst tr - TILE_SIZE / 2)%Z.
Definition tr_y (tr : Transform) : Z := (snd tr - TILE_SIZE / 2)%Z.

(** [Stitcher]. *)
Record Stitcher := {
  s_coords : Coords;
  s_schematic : SchematicAsset;
  s_chunk : list (Tile * Transform);
  s_adj : Adjacencies;
  s_constraint_map : list (list nat);
  s_tiles : list (option nat)
}.

Definition with_ring_map (st : Stitcher) (cm : list (list nat)) : Stitcher :=
  {| s_coords := s_coords st; s_schematic := s_schematic st; s_chunk := s_chunk st;
     s_adj := s_adj st; s_constraint_map := cm; s_tiles := s_tiles st |}.

Definition with_ring_tiles (st : Stitcher) (t : list (option nat)) : Stitcher :=
  {| s_coords := s_coords st; s_schematic := s_schematic st; s_chunk := s_chunk st;
     s_adj := s_adj st; s_constraint_map := s_constraint_map st; s_tiles := t |}.

(** [self.tiles[i]]; the indices the code reads are in range. *)
Definition ring_tile (t : list (option nat)) (i : nat) : option nat :=
  match t !! i with Some o => o | None => None end.

Definition ring_dom (cm : list (list nat)) (i : nat) : list nat :=
  match cm !! i with Some d => d | None => [] end.

(** [for (tile, transform) in tiles.iter() { if hit(transform) { let allowed =
    schematic.tiles[&tile.texture_id].dir.clone(); constraint.retain(..) } }]. *)
Definition restrict_by_tiles (sch : SchematicAsset) (dir : TileSchematic -> list nat)
    (hit : Transform -> bool) (l : list (Tile * Transform)) (c : list nat)
    : option (list nat) :=
  foldM (fun c '(tile, tr) =>
           if hit tr then
             match sch_lookup sch (texture_id tile) with
             | Some ts => Some (retain_allowed (dir ts) c)
             | None => None
             end
           else Some c) l c.

(** [if let Some(tiles) = &self.adj.i { .. }]. *)
Definition restrict_by_adj (sch : SchematicAsset) (dir : TileSchematic -> list nat)
    (hit : Transform -> bool) (a : option (list (Tile * Transform))) (c : list nat)
    : option (list nat) :=
  match a with
  | Some l => restrict_by_tiles sch dir hit l c
  | None => Some c
  end.

(** [if self.tiles[j].is_some() { let allowed = schematic.tiles[&id].dir.clone();
    constraint.retain(..) }]. *)
Definition restrict_ring (sch : SchematicAsset) (dir : TileSchematic -> list nat)
    (t : option nat) (c : list nat) : option (list nat) :=
  match t with
  | Some id =>
      match sch_lookup sch id with
      | Some ts => Some (retain_allowed (dir ts) c)
      | None => None
      end
  | None => Some c
  end.

(** "Check chunk and connecting chunks": the neighbour chunk on the side of
    the ring cell, then (off the corners) the chunk's own tiles. *)
Definition restrict_by_chunks (st : Stitcher) (side rank : nat) (c : list nat)
    : option (list nat) :=
  let sch := s_schematic st in
  let p := get_perimeter_world_coord (s_coords st) (Z.of_nat side) (Z.of_nat rank) in
  if (side =? 0) || ((side =? 1) && (rank =? 0)) then
    c1 ← restrict_by_adj sch south
           (fun tr => (tr_x tr =? fst p) && (tr_y tr - TILE_SIZE =? snd p))%Z
           (adj_north (s_adj st)) c ;
    if negb (rank =? 0) then
      restrict_by_tiles sch south
        (fun tr => (tr_x tr =? fst p) && (tr_y tr + TILE_SIZE =? snd p))%Z
        (s_chunk st) c1
    else Some c1
  else if (side =? 1) || ((side =? 2) && (rank =? 0)) then
    c1 ← restrict_by_adj sch west
           (fun tr => (tr_x tr - TILE_SIZE =? fst p) && (tr_y tr =? snd p))%Z
           (adj_east (s_adj st)) c ;
    if negb (rank =? 0) then
      restrict_by_tiles sch south
        (fun tr => (tr_x tr + TILE_SIZE =? fst p) && (tr_y tr =? snd p))%Z
        (s_chunk st) c1
    else Some c1
  else if (side =? 2) || ((side =? 3) && (rank =? 0)) then
    c1 ← restrict_by_adj sch north
           (fun tr => (tr_x tr =? fst p) && (tr_y tr + TILE_SIZE =? snd p))%Z
           (adj_south (s_adj st)) c ;
    if negb (rank =? 0) then
      restrict_by_tiles sch south
        (fun tr => (tr_x tr =? fst p) && (tr_y tr - TILE_SIZE =? snd p))%Z
        (s_chunk st) c1
    else Some c1
  else if (side =? 3) || ((side =? 0) && (rank =? 0)) then
    c1 ← restrict_by_adj sch east
           (fun tr => (tr_x tr =? fst p + TILE_SIZE) && (tr_y tr =? snd p))%Z
           (adj_west (s_adj st)) c ;
    if negb (rank =? 0) then
      restrict_by_tiles sch south
        (fun tr => (tr_x tr - TILE_SIZE =? fst p) && (tr_y tr =? snd p))%Z
        (s_chunk st) c1
    else Some c1
  else Some c.

(** "Check before and after idx": the ring neighbours of the cell. *)
Definition restrict_by_ring (st : Stitcher) (idx side rank : nat) (c : list nat)
    : option (list nat) :=
  let sch := s_schematic st in
  let t := s_tiles st in
  if side =? 0 then
    if rank =? 0 then
      c1 ← restrict_ring sch north (ring_tile t (length t - 1)) c ;
      restrict_ring sch west (ring_tile t (idx + 1)) c1
    else
      c1 ← restrict_ring sch east (ring_tile t (idx - 1)) c ;
      restrict_ring sch west (ring_tile t (idx + 1)) c1
  else if side =? 1 then
    if rank =? 0 then
      c1 ← restrict_ring sch north (ring_tile t (idx - 1)) c ;
      restrict_ring sch north (ring_tile t (idx + 1)) c1
    else
      c1 ← restrict_ring sch south (ring_tile t (idx - 1)) c ;
      restrict_ring sch north (ring_tile t (idx + 1)) c1
  else if side =? 1 then
    (* the second [side == 1] branch of the source, never taken *)
    if rank =? 0 then
      c1 ← restrict_ring sch east (ring_tile t (idx - 1)) c ;
      restrict_ring sch north (ring_tile t (idx + 1)) c1
    else
      c1 ← restrict_ring sch south (ring_tile t (idx - 1)) c ;
      restrict_ring sch north (ring_tile t (idx + 1)) c1
  else if side =? 2 then
    if rank =? 0 then
      c1 ← restrict_ring sch south (ring_tile t (idx - 1)) c ;
      restrict_ring sch east (ring_tile t (idx + 1)) c1
    else
      c1 ← restrict_ring sch west (ring_tile t (idx - 1)) c ;
      restrict_ring sch east (ring_tile t (idx + 1)) c1
  else if side =? 3 then
    if rank =? 0 then
      c1 ← restrict_ring sch north (ring_tile t (idx - 1)) c ;
      (* [if self.tiles[idx + 1].is_some() { .. self.tiles[0].unwrap() .. }] *)
      match ring_tile t (idx + 1) with
      | Some _ =>
          match ring_tile t 0 with
          | Some id0 => restrict_ring sch west (Some id0) c1
          | None => None
          end
      | None => Some c1
      end
    else if rank =? CHUNK_TILE_LENGTH then
      c1 ← restrict_ring sch north (ring_tile t (idx - 1)) c ;
      restrict_ring sch south (ring_tile t 0) c1
    else
      c1 ← restrict_ring sch north (ring_tile t (idx - 1)) c ;
      restrict_ring sch south (ring_tile t (idx + 1)) c1
  else Some c.

(** The body of the loop of [Stitcher::update_constraint_map] for the ring
    cell [idx] with constraint [c]. *)
Definition update_ring_cell (st : Stitcher) (idx : nat) (c : list nat)
    : option (list nat) :=
  match c with
  | [] => Some c
  | _ :: _ =>
      match ring_tile (s_tiles st) idx with
      | Some _ => Some []
      | None =>
          let side := idx / (CHUNK_TILE_LENGTH + 1) in
          let rank := idx mod (CHUNK_TILE_LENGTH + 1) in
          c1 ← restrict_by_chunks st side rank c ;
          restrict_by_ring st idx side rank c1
      end
  end.

(** [Stitcher::update_constraint_map]: [iter_mut().enumerate()] over the
    constraint map; each entry is rewritten from itself and the other
    fields. *)
Definition stitcher_update (st : Stitcher) : option Stitcher :=
  cm ← mapM (fun ic => update_ring_cell st (fst ic) (snd ic))
            (zip (seq 0 (length (s_constraint_map st))) (s_constraint_map st)) ;
  Some (with_ring_map st cm).

(** [Stitcher::lowest_entropy]. *)
Definition ring_entropy_step (acc : option nat * nat) (ic : nat * list nat)
    : option nat * nat :=
  let '(index, lowest) := acc in
  let '(idx, constraint) := ic in
  let n_constraints := length constraint in
  if (0 <? n_constraints) && ((lowest =? 0) || (n_constraints <? lowest))
  then (Some idx, n_constraints)
  else (index, lowest).

Definition ring_lowest_entropy (st : Stitcher) : option nat :=
  fst (fold_left ring_entropy_step
         (zip (seq 0 (length (s_constraint_map st))) (s_constraint_map st)) (None, 0)).

Section Stitching.

(** Iteration order of the [HashSet<u8>] built in [init_stitching_constaints]. *)
Variable rs : list nat.
(** [thread_rng().gen_range(0..n)] at its [k]-th use is [thread_gen k mod n]. *)
Variable thread_gen : nat -> nat.

(** [Stitcher::init_stitching_constaints]. *)
Definition init_stitching_constaints (sch : SchematicAsset) (adj : Adjacencies)
    : list (list nat) :=
  let unconstrained := hs_collect rs (sch_keys sch) in
  map (fun idx =>
         let side := idx / (CHUNK_TILE_LENGTH + 1) in
         let rank := idx mod (CHUNK_TILE_LENGTH + 1) in
         if is_some (adj_north adj) && ((side =? 0) || ((side =? 1) && (rank =? 0)))
         then unconstrained
         else if is_some (adj_east adj) && ((side =? 1) || ((side =? 2) && (rank =? 0)))
         then unconstrained
         else if is_some (adj_south adj) && ((side =? 2) || ((side =? 3) && (rank =? 0)))
         then unconstrained
         else if is_some (adj_west adj) && ((side =? 3) || ((side =? 0) && (rank =? 0)))
         then unconstrained
         else [])
      (seq 0 RING_LENGTH).

(** [Stitcher::init]. *)
Definition stitcher_init (sch : SchematicAsset) (c : Coords)
    (chunk : list (Tile * Transform)) (adj : Adjacencies) : Stitcher :=
  {| s_coords := c; s_schematic := sch; s_chunk := chunk; s_adj := adj;
     s_constraint_map := init_stitching_constaints sch adj;
     s_tiles := repeat None RING_LENGTH |}.

(** [Stitcher::collapse_tile], as the [k]-th draw of the thread RNG. *)
Definition ring_collapse_tile (k : nat) (st : Stitcher) (idx : nat) : option nat :=
  let available := ring_dom (s_constraint_map st) idx in
  let n := as_u8 (length available) in
  rand ← gen_range (thread_gen k) n ;
  available !! rand.

(** The [while let] loop of [Stitcher::stitch], with fuel; [k] counts the
    draws made so far. *)
Fixpoint stitch_loop (fuel k : nat) (st : Stitcher) : res (Stitcher * nat) :=
  match fuel with
  | O => NoFuel
  | S fuel' =>
      match ring_lowest_entropy st with
      | Some next =>
          match ring_collapse_tile k st next with
          | Some t =>
              let st1 := with_ring_tiles st (<[next := Some t]> (s_tiles st)) in
              match stitcher_update st1 with
              | Some st2 => stitch_loop fuel' (S k) st2
              | None => Panic
              end
          | None => Panic
          end
      | None => Done (st, k)
      end
  end.

Definition stitch_bound : nat := RING_LENGTH + 1.

(** [Stitcher::stitch]. *)
Definition stitch (k : nat) (st : Stitcher) : res (Stitcher * nat) :=
  stitch_loop stitch_bound k st.

End Stitching.

(* ------------------------------------------------------------------ *)
(** ** Chunk systems (world/mod.rs) *)

(** A chunk entity: its [Transform] translation, its tile children (each a
    [Tile] with its relative [Transform]) and whether it has [Dirty]. *)
Record ChunkEntity := {
  ch_translation : Transform;
  ch_children : list (Tile * Transform);
  ch_dirty : bool
}.

(** [ChunkCoords::from(&Transform)]. *)
Definition chunk_coords_of (tr : Transform) : Coords :=
  (fst tr - CHUNK_SIZE / 2, snd tr - CHUNK_SIZE / 2)%Z.

(** [ChunkCoords == Transform]. *)
Definition coords_eq_transform (c : Coords) (tr : Transform) : bool :=
  ((fst c =? fst tr - CHUNK_SIZE / 2) && (snd c =? snd tr - CHUNK_SIZE / 2))%Z.

(** [get_chunk_tiles]: every child of a chunk is a tile. *)
Definition get_chunk_tiles (ch : ChunkEntity) : list (Tile * Transform) :=
  ch_children ch.

(** [get_connected_chunks]. *)
Definition get_connected_chunks (c : Coords) (chunks : list ChunkEntity) : Adjacencies :=
  fold_left (fun adj ch =>
    let to_check := chunk_coords_of (ch_translation ch) in
    if ((fst c =? fst to_check) && (snd c + CHUNK_SIZE + TILE_SIZE =? snd to_check))%Z then
      {| adj_north := Some (get_chunk_tiles ch); adj_east := adj_east adj;
         adj_south := adj_south adj; adj_west := adj_west adj |}
    else if ((fst c + CHUNK_SIZE + TILE_SIZE =? fst to_check) && (snd c =? snd to_check))%Z then
      {| adj_north := adj_north adj; adj_east := Some (get_chunk_tiles ch);
         adj_south := adj_south adj; adj_west := adj_west adj |}
    else if ((fst c - CHUNK_SIZE - TILE_SIZE =? fst to_check) && (snd c =? snd to_check))%Z then
      {| adj_north := adj_north adj; adj_east := adj_east adj;
         adj_south := Some (get_chunk_tiles ch); adj_west := adj_west adj |}
    else if ((fst c =? fst to_check) && (snd c - CHUNK_SIZE - TILE_SIZE =? snd to_check))%Z then
      {| adj_north := adj_north adj; adj_east := adj_east adj;
         adj_south := adj_south adj; adj_west := Some (get_chunk_tiles ch) |}
    else adj)
    chunks
    {| adj_north := None; adj_east := None; adj_south := None; adj_west := None |}.

(** The ring tiles spawned by [gen_chunk_stitches] for the stitched [edges]. *)
Definition ring_children (sch : SchematicAsset) (c : Coords) (edges : list (option nat))
    : list (Tile * Transform) :=
  map (fun it =>
         let '(idx, tile) := it in
         let side := idx / (CHUNK_TILE_LENGTH + 1) in
         let rank := idx mod (CHUNK_TILE_LENGTH + 1) in
         let p := get_perimeter_world_coord c (Z.of_nat side) (Z.of_nat rank) in
         let x_rel := (fst p - fst c + TILE_SIZE / 2 - CHUNK_SIZE / 2)%Z in
         let y_rel := (snd p - snd c + TILE_SIZE / 2 - CHUNK_SIZE / 2)%Z in
         let tile_id := match tile with Some t => t | None => not_found sch end in
         ({| texture_id := tile_id |}, (x_rel, y_rel)))
      (zip (seq 0 (length edges)) edges).

(** The state of the schematic asset seen by a system: no handle yet, a
    handle whose asset is still loading, or the loaded asset. *)
Inductive AssetState :=
| NoHandle
| Loading
| Loaded (sch : SchematicAsset).

Section Stitches.

Variable rs : list nat.
Variable thread_gen : nat -> nat.

(** One iteration of the loop over [dirty_chunks_query] in
    [gen_chunk_stitches]; the queries read the world as it was when the
    system started (commands are deferred). *)
Definition stitch_chunk (sch : SchematicAsset) (world : list ChunkEntity) (k : nat)
    (ch : ChunkEntity) : res (ChunkEntity * nat) :=
  let c := chunk_coords_of (ch_translation ch) in
  let chunk := get_chunk_tiles ch in
  let adj := get_connected_chunks c world in
  match stitch thread_gen k (stitcher_init rs sch c chunk adj) with
  | Done (st, k') =>
      Done ({| ch_translation := ch_translation ch;
               ch_children := ch_children ch ++ ring_children sch c (s_tiles st);
               ch_dirty := false |}, k')
  | Panic => Panic
  | NoFuel => NoFuel
  end.

Fixpoint stitch_all (sch : SchematicAsset) (world : list ChunkEntity) (k : nat)
    (chunks : list ChunkEntity) : res (list ChunkEntity * nat) :=
  match chunks with
  | [] => Done ([], k)
  | ch :: rest =>
      if ch_dirty ch then
        match stitch_chunk sch world k ch with
        | Done (ch', k') =>
            match stitch_all sch world k' rest with
            | Done (rest', k'') => Done (ch' :: rest', k'')
            | Panic => Panic
            | NoFuel => NoFuel
            end
        | Panic => Panic
        | NoFuel => NoFuel
        end
      else
        match stitch_all sch world k rest with
        | Done (rest', k') => Done (ch :: rest', k')
        | Panic => Panic
        | NoFuel => NoFuel
        end
  end.

(** [gen_chunk_stitches]: the world after the system, with the thread RNG's
    draw counter. *)
Definition gen_chunk_stitches (assets : AssetState) (world : list ChunkEntity) (k : nat)
    : res (list ChunkEntity * nat) :=
  match assets with
  | NoHandle => Done (world, k)
  | _ =>
      if forallb (fun ch => negb (ch_dirty ch)) world then Done (world, k)
      else
        match assets with
        | Loaded sch => stitch_all sch world k world
        | _ => Panic (* [.expect("Error loading in schematic!")] *)
        end
  end.

End Stitches.

(** The tiles spawned by [create_chunks] for an interior grid: for [x], then
    [y], in [0..CHUNK_TILE_LENGTH].  (The source reads [collapsed.unwrap()]
    as the identifier: the first component of the [(u8, u8)] cell.) *)
Definition interior_children (sch : SchematicAsset) (grid : list (list Cell))
    : list (Tile * Transform) :=
  map (fun xy =>
         let '(x, y) := xy in
         let x_rel := (Z.of_nat x * TILE_SIZE + TILE_SIZE / 2 - CHUNK_SIZE / 2)%Z in
         let y_rel := (Z.of_nat y * TILE_SIZE + TILE_SIZE / 2 - CHUNK_SIZE / 2)%Z in
         let tile_id := match tile_at grid x y with
                        | Some t => fst t
                        | None => not_found sch
                        end in
         ({| texture_id := tile_id |}, (x_rel, y_rel)))
      raster.

Section Chunks.

Variable hasher : Z -> Z.
Variable seeded_gen : Z -> nat -> nat.
Variable rs : list nat.

(** The world seed passed by [create_chunks]. *)
Definition WORLD_SEED : Z := 42.

(** The body of [create_chunks] for a coordinate not yet present: generate
    the interior and spawn the chunk, marked [Dirty], with its tiles. *)
Definition spawn_chunk (sch : SchematicAsset) (in_range : Coords) : res ChunkEntity :=
  match generate hasher seeded_gen rs WORLD_SEED sch in_range with
  | Done grid =>
      Done {| ch_translation := (fst in_range + CHUNK_SIZE / 2,
                                 snd in_range + CHUNK_SIZE / 2)%Z;
              ch_children := interior_children sch grid;
              ch_dirty := true |}
  | Panic => Panic
  | NoFuel => NoFuel
  end.

(** [create_chunks]: the chunks spawned, in order; the presence check reads
    the chunks of the world when the system started. *)
Fixpoint create_chunks (assets : option SchematicAsset) (world : list ChunkEntity)
    (chunks_in_range : list Coords) : res (list ChunkEntity) :=
  match chunks_in_range with
  | [] => Done []
  | in_range :: rest =>
      if existsb (fun ch => coords_eq_transform in_range (ch_translation ch)) world then
        create_chunks assets world rest
      else
        match assets with
        | None => Panic (* [.expect("Error loading in schematic!")] *)
        | Some sch =>
            match spawn_chunk sch in_range with
            | Done ch =>
                match create_chunks assets world rest with
                | Done l => Done (ch :: l)
                | Panic => Panic
                | NoFuel => NoFuel
                end
            | Panic => Panic
            | NoFuel => NoFuel
            end
        end
  end.

End Chunks.

(** [-RENDER_DISTANCE..=RENDER_DISTANCE]. *)
Definition render_range : list Z :=
  map (fun i => (- RENDER_DISTANCE + Z.of_nat i)%Z)
      (seq 0 (Z.to_nat (2 * RENDER_DISTANCE + 1))).

(** [get_chunks_in_range]; the camera position is taken as a rational
    (the rounding of the [f32] division is not modelled). *)
Definition get_chunks_in_range (pos : Q * Q) : list Coords :=
  let offset_x := Qfloor ((fst pos - inject_Z TILE_SIZE)
                          / inject_Z (CHUNK_SIZE + TILE_SIZE))%Q in
  let offset_y := Qfloor ((snd pos - inject_Z TILE_SIZE)
                          / inject_Z (CHUNK_SIZE + TILE_SIZE))%Q in
  (* [vec![ChunkCoords::default(); ((2 * RENDER_DISTANCE) ^ 2) as usize]] *)
  repeat (0%Z, 0%Z) (Z.to_nat (Z.lxor (2 * RENDER_DISTANCE) 2))
  ++ flat_map (fun x =>
                 map (fun y => (((offset_x + x) * (CHUNK_SIZE + TILE_SIZE)) - TILE_SIZE,
                                ((offset_y + y) * (CHUNK_SIZE + TILE_SIZE)) - TILE_SIZE)%Z)
                     render_range)
              render_range.

(** [remove_stale_chunks]: a chunk is stale when no coordinate in range
    equals its transform; the world left after the despawns, in order. *)
Definition remove_stale_chunks (chunks_in_range : list Coords) (world : list ChunkEntity)
    : list ChunkEntity :=
  filter (fun ch =>
            let is_stale := forallb (fun in_range =>
                              negb (coords_eq_transform in_range (ch_translation ch)))
                              chunks_in_range in
            negb is_stale = true)
         world.

Section Gen.

Variable hasher : Z -> Z.
Variable seeded_gen : Z -> nat -> nat.
Variable rs : list nat.

(** [gen_chunks] for the camera at [cam]: without a handle ([NoHandle]:
    the schematic's or the terrain image's handle missing) nothing happens;
    otherwise the chunks in range are created and the stale ones removed.
    Both systems queue commands, which take effect after the system: the
    world after it is the chunks kept followed by the chunks spawned. *)
Definition gen_chunks (assets : AssetState) (world : list ChunkEntity) (cam : Q * Q)
    : res (list ChunkEntity) :=
  match assets with
  | NoHandle => Done world
  | _ =>
      let chunks_in_range := get_chunks_in_range cam in
      let schematic := match assets with Loaded sch => Some sch | _ => None end in
      match create_chunks hasher seeded_gen rs schematic world chunks_in_range with
      | Done spawned => Done (remove_stale_chunks chunks_in_range world ++ spawned)
      | Panic => Panic
      | NoFuel => NoFuel
      end
  end.

End Gen.

(* ------------------------------------------------------------------ *)
(** ** Properties stated by the specification *)

(** Membership in an allow-list. *)
Definition allows (dir : TileSchematic -> list nat) (sch : SchematicAsset) (a b : nat) : Prop :=
  exists ta, sch_lookup sch a = Some ta /\ b ∈ dir ta.

(** The adjacency checks of the spec on a grid indexed [grid[x][y]] ([x]
    eastwards, [y] northwards): the eastward tile is in the westward tile's
    east list and the westward tile in the eastward tile's west list; the
    northward tile is in the southward tile's north list and the southward
    tile in the northward tile's south list. *)
Definition adjacency_valid (sch : SchematicAsset) (grid : list (list Cell)) : Prop :=
  (forall x y a na b nb, x + 1 < CHUNK_TILE_LENGTH -> y < CHUNK_TILE_LENGTH ->
     tile_at grid x y = Some (a, na) -> tile_at grid (x + 1) y = Some (b, nb) ->
     allows east sch a b /\ allows west sch b a) /\
  (forall x y a na b nb, x < CHUNK_TILE_LENGTH -> y + 1 < CHUNK_TILE_LENGTH ->
     tile_at grid x y = Some (a, na) -> tile_at grid x (y + 1) = Some (b, nb) ->
     allows north sch a b /\ allows south sch b a).

(** The check made by the tile collapsed first holds for every pair. *)
Definition adjacency_one_way (sch : SchematicAsset) (grid : list (list Cell)) : Prop :=
  (forall x y a na b nb, x + 1 < CHUNK_TILE_LENGTH -> y < CHUNK_TILE_LENGTH ->
     tile_at grid x y = Some (a, na) -> tile_at grid (x + 1) y = Some (b, nb) ->
     allows east sch a b \/ allows west sch b a) /\
  (forall x y a na b nb, x < CHUNK_TILE_LENGTH -> y + 1 < CHUNK_TILE_LENGTH ->
     tile_at grid x y = Some (a, na) -> tile_at grid x (y + 1) = Some (b, nb) ->
     allows north sch a b \/ allows south sch b a).

(** A schematic whose allow-lists agree with each other in both directions. *)
Definition schematic_consistent (sch : SchematicAsset) : Prop :=
  forall a b ta tb, sch_lookup sch a = Some ta -> sch_lookup sch b = Some tb ->
    (b ∈ east ta <-> a ∈ west tb) /\ (b ∈ north ta <-> a ∈ south tb).

(** A [RandomState]'s iteration order over the byte values. *)
Definition iteration_order (rs : list nat) : Prop :=
  NoDup rs /\ forall x, x < 256 -> x ∈ rs.

(** [l] is the tile list of the last chunk of [world] at the chunk
    coordinates [target]. *)
Definition last_chunk_at (world : list ChunkEntity) (target : Coords)
    (l : list (Tile * Transform)) : Prop :=
  exists pre ch post,
    world = pre ++ ch :: post /\ chunk_coords_of (ch_translation ch) = target /\
    l = get_chunk_tiles ch /\
    Forall (fun ch' => chunk_coords_of (ch_translation ch') <> target) post.

(** The interior cell bordering the non-corner ring cell [(side, rank)],
    [1 <= rank <= L], and the outward direction of the side. *)
Definition bordering_cell (side rank : nat) : nat * nat :=
  match side with
  | 0 => (rank - 1, CHUNK_TILE_LENGTH - 1)
  | 1 => (CHUNK_TILE_LENGTH - 1, CHUNK_TILE_LENGTH - rank)
  | 2 => (CHUNK_TILE_LENGTH - rank, 0)
  | _ => (0, rank - 1)
  end.

Definition outward (side : nat) : TileSchematic -> list nat :=
  match side with 0 => north | 1 => east | 2 => south | _ => west end.

Definition side_neighbour (adj : Adjacencies) (side : nat) : option (list (Tile * Transform)) :=
  match side with
  | 0 => adj_north adj | 1 => adj_east adj | 2 => adj_south adj | _ => adj_west adj
  end.

(** A [Vec<Vec<T>>] of [L] rows of [L] entries. *)
Definition square {A} (g : list (list A)) : Prop :=
  length g = CHUNK_TILE_LENGTH /\ Forall (fun row => length row = CHUNK_TILE_LENGTH) g.

(** The collapsed neighbours of the cell [(px, py)] all allow every value of
    the domain [d], each by its allow-list pointing at the cell. *)
Definition neighbours_allow (sch : SchematicAsset) (t : list (list Cell)) (px py : nat)
    (d : list nat) : Prop :=
  (forall a n b, 1 <= px -> tile_at t (px - 1) py = Some (a, n) -> b ∈ d ->
     allows east sch a b) /\
  (forall a n b, 1 <= py -> tile_at t px (py - 1) = Some (a, n) -> b ∈ d ->
     allows north sch a b) /\
  (forall a n b, px + 1 < CHUNK_TILE_LENGTH -> tile_at t (px + 1) py = Some (a, n) ->
     b ∈ d -> allows west sch a b) /\
  (forall a n b, py + 1 < CHUNK_TILE_LENGTH -> tile_at t px (py + 1) = Some (a, n) ->
     b ∈ d -> allows south sch a b).

(** The state after a propagation pass: collapsed cells have empty domains
    and every uncollapsed cell's domain is allowed by its collapsed
    neighbours. *)
Definition propagated (sch : SchematicAsset) (t : list (list Cell))
    (cm : list (list (list nat))) : Prop :=
  (forall x y p, x < CHUNK_TILE_LENGTH -> y < CHUNK_TILE_LENGTH ->
     tile_at t x y = Some p -> dom_at cm x y = []) /\
  (forall x y, x < CHUNK_TILE_LENGTH -> y < CHUNK_TILE_LENGTH ->
     tile_at t x y = None -> neighbours_allow sch t x y (dom_at cm x y)).

(** Collapsed tiles are keys of the schematic, and so is every value of
    every domain. *)
Definition keys_only (sch : SchematicAsset) (t : list (list Cell))
    (cm : list (list (list nat))) : Prop :=
  (forall x y a n, tile_at t x y = Some (a, n) -> a ∈ sch_keys sch) /\
  (forall x y, dom_at cm x y ⊆ sch_keys sch).

(** The invariant of the head of the collapse loop. *)
Definition loop_inv (st : Wfc) : Prop :=
  square (wfc_tiles st) /\ square (constraint_map st) /\
  adjacency_one_way (schematic st) (wfc_tiles st) /\
  keys_only (schematic st) (wfc_tiles st) (constraint_map st) /\
  forall px py, lowest_entropy st = Some (px, py) ->
    neighbours_allow (schematic st) (wfc_tiles st) px py (dom_at (constraint_map st) px py).

(** The number of cells with a nonempty domain. *)
Definition open_cells (cm : list (list (list nat))) : nat :=
  length (filter (fun xy => 0 < length (dom_at cm (fst xy) (snd xy))) raster).

Definition open_ring_cells (cm : list (list nat)) : nat :=
  length (filter (fun d => 0 < length d) cm).

(* ------------------------------------------------------------------ *)
(** ** Concrete scenarios *)

Definition tile_schematic (n e s w : list nat) : TileSchematic :=
  {| name := String.EmptyString; sheet := String.EmptyString; weight := 1;
     north := n; east := e; south := s; west := w |}.

(** The identity iteration order and the one swapping [0] and [1]. *)
Definition rs_ascending : list nat := seq 0 256.
Definition rs_swapped : list nat := 1 :: 0 :: seq 2 254.

(** Two tile types, each allowing only itself on every side (the spec's
    monochrome scenario). *)
Definition sch_mono : SchematicAsset :=
  {| not_found := 0;
     tiles := [(0, tile_schematic [0] [0] [0] [0]); (1, tile_schematic [1] [1] [1] [1])] |}.

(** One tile type whose west allow-list is empty. *)
Definition sch_one_way : SchematicAsset :=
  {| not_found := 0; tiles := [(0, tile_schematic [0] [0] [0] [])] |}.

(** A schematic with all 256 tile types, each allowing every type. *)
Definition sch_full : SchematicAsset :=
  {| not_found := 0;
     tiles := map (fun i => (i, tile_schematic (seq 0 256) (seq 0 256) (seq 0 256) (seq 0 256)))
                  (seq 0 256) |}.

(** Tile [0] allows [0] to its north and [1] to its south; tile [1] allows
    everything. *)
Definition sch_edge : SchematicAsset :=
  {| not_found := 0;
     tiles := [(0, tile_schematic [0] [0; 1] [1] [0; 1]);
               (1, tile_schematic [0; 1] [0; 1] [0; 1] [0; 1])] |}.

(** The chunk at [(-320, -320)] (the chunk of [get_chunks_in_range] at the
    origin), with all interior tiles of type [0], and its north neighbour
    with all tiles of type [1]. *)
Definition edge_coords : Coords := ((-320)%Z, (-320)%Z).
Definition edge_grid : list (list Cell) := repeat (repeat (Some (0, 1)) 8) 8.
Definition north_grid : list (list Cell) := repeat (repeat (Some (1, 1)) 8) 8.
Definition edge_stitcher : Stitcher :=
  stitcher_init rs_ascending sch_edge edge_coords (interior_children sch_edge edge_grid)
    {| adj_north := Some (interior_children sch_edge north_grid);
       adj_east := None; adj_south := None; adj_west := None |}.

(** A freshly spawned chunk alone in the world. *)
Definition lone_chunk : ChunkEntity :=
  {| ch_translation := ((-192)%Z, (-192)%Z);
     ch_children := interior_children sch_edge edge_grid;
     ch_dirty := true |}.

(** * Properties *)


Lemma vec_contains_spec v x : vec_contains v x = true <-> x ∈ v.
Proof.
  unfold vec_contains. rewrite existsb_exists, list_elem_of_In. split.
  - intros [y [Hy Heq]]. apply Nat.eqb_eq in Heq. subst. exact Hy.
  - intros Hx. exists x. split; [exact Hx | apply Nat.eqb_refl].
Qed.

Lemma elem_of_retain_allowed allowed s x :
  x ∈ retain_allowed allowed s <-> x ∈ allowed /\ x ∈ s.
Proof. unfold retain_allowed. rewrite list_elem_of_filter, vec_contains_spec. tauto. Qed.

Lemma retain_allowed_subseteq allowed s : retain_allowed allowed s ⊆ s.
Proof. intros x. rewrite elem_of_retain_allowed. tauto. Qed.

Lemma elem_of_hs_collect rs keys x : x ∈ hs_collect rs keys <-> x ∈ keys /\ x ∈ rs.
Proof. unfold hs_collect. rewrite list_elem_of_filter, vec_contains_spec. tauto. Qed.

Lemma sch_lookup_keys sch a : a ∈ sch_keys sch -> exists ta, sch_lookup sch a = Some ta.
Proof.
  unfold sch_keys, sch_lookup. induction (tiles sch) as [|[k v] m IH]; simpl.
  - intros H. by apply elem_of_nil in H.
  - intros H. destruct (Nat.eqb a k) eqn:E; [eauto|].
    apply IH. apply elem_of_cons in H as [->|H]; [|exact H].
    rewrite Nat.eqb_refl in E. discriminate.
Qed.

Lemma lookup_repeat_lt {A} (a : A) n i : i < n -> repeat a n !! i = Some a.
Proof.
  revert i. induction n as [|n IH]; intros [|i] Hi; simpl; try lia; [done|].
  apply IH. lia.
Qed.

Lemma length_repeat' {A} (a : A) n : length (repeat a n) = n.
Proof. induction n; simpl; lia. Qed.

Lemma cell_repeat {A} (dflt a : A) x y :
  x < CHUNK_TILE_LENGTH -> y < CHUNK_TILE_LENGTH ->
  cell dflt (repeat (repeat a CHUNK_TILE_LENGTH) CHUNK_TILE_LENGTH) x y = a.
Proof. intros Hx Hy. unfold cell. by rewrite !lookup_repeat_lt. Qed.

Lemma square_repeat {A} (a : A) :
  square (repeat (repeat a CHUNK_TILE_LENGTH) CHUNK_TILE_LENGTH).
Proof.
  split; [apply length_repeat'|]. apply Forall_forall. intros row Hrow.
  apply list_elem_of_In, repeat_spec in Hrow. subst. apply length_repeat'.
Qed.

Lemma square_set_cell {A} (g : list (list A)) x y a : square g -> square (set_cell g x y a).
Proof.
  intros [Hl Hr]. unfold set_cell. destruct (g !! x) as [row|] eqn:E; [|by split].
  split; [by rewrite length_insert|]. apply Forall_insert; [exact Hr|].
  rewrite length_insert. exact (Forall_lookup_1 _ _ _ _ Hr E).
Qed.

Lemma cell_set_cell_eq {A} (dflt : A) g x y a :
  square g -> x < CHUNK_TILE_LENGTH -> y < CHUNK_TILE_LENGTH ->
  cell dflt (set_cell g x y a) x y = a.
Proof.
  intros [Hl Hr] Hx Hy. unfold cell, set_cell.
  destruct (lookup_lt_is_Some_2 g x) as [row E]; [lia|]. rewrite E.
  rewrite list_lookup_insert_eq by lia.
  pose proof (Forall_lookup_1 _ _ _ _ Hr E) as Hrow; simpl in Hrow.
  by rewrite list_lookup_insert_eq by lia.
Qed.

Lemma cell_set_cell_ne {A} (dflt : A) g x y x' y' a :
  (x, y) <> (x', y') -> cell dflt (set_cell g x y a) x' y' = cell dflt g x' y'.
Proof.
  intros Hne. unfold cell, set_cell. destruct (g !! x) as [row|] eqn:E; [|done].
  destruct (decide (x = x')) as [<-|Hx].
  - rewrite list_lookup_insert_eq by (eapply lookup_lt_Some; eauto). rewrite E.
    rewrite list_lookup_insert_ne; [done|]. congruence.
  - by rewrite list_lookup_insert_ne.
Qed.

Lemma cell_out_of_range {A} (dflt : A) g x y :
  square g -> ~ (x < CHUNK_TILE_LENGTH /\ y < CHUNK_TILE_LENGTH) -> cell dflt g x y = dflt.
Proof.
  intros [Hl Hr] Hn. unfold cell. destruct (g !! x) as [row|] eqn:E; [|done].
  pose proof (lookup_lt_Some _ _ _ E) as Hx.
  pose proof (Forall_lookup_1 _ _ _ _ Hr E) as Hrow; simpl in Hrow.
  destruct (row !! y) eqn:Ey; [|done].
  pose proof (lookup_lt_Some _ _ _ Ey). lia.
Qed.

Lemma elem_of_raster x y : (x, y) ∈ raster <-> x < CHUNK_TILE_LENGTH /\ y < CHUNK_TILE_LENGTH.
Proof.
  unfold raster. rewrite list_elem_of_In, in_flat_map. split.
  - intros [x' [Hx' Hy']]. apply in_map_iff in Hy' as [y' [[= -> ->] Hy']].
    apply in_seq in Hx', Hy'. lia.
  - intros [Hx Hy]. exists x. split; [apply in_seq; lia|].
    apply in_map_iff. exists y. split; [done|]. apply in_seq. lia.
Qed.

Lemma NoDup_raster : NoDup raster.
Proof. apply (bool_decide_unpack _). vm_compute. reflexivity. Qed.

Lemma raster_lookup x y :
  x < CHUNK_TILE_LENGTH -> y < CHUNK_TILE_LENGTH ->
  raster !! (x * CHUNK_TILE_LENGTH + y) = Some (x, y).
Proof.
  unfold CHUNK_TILE_LENGTH. intros Hx Hy.
  do 8 (destruct x as [|x]; [do 8 (destruct y as [|y]; [reflexivity|]); lia|]). lia.
Qed.

Lemma length_raster : length raster = 64.
Proof. reflexivity. Qed.

Lemma restrict_subseteq sch dir nb d d' : restrict sch dir nb d = Some d' -> d' ⊆ d.
Proof.
  unfold restrict. destruct nb as [[id n]|]; [|intros [= <-]; reflexivity].
  destruct (sch_lookup sch id); [|discriminate].
  intros [= <-]. apply retain_allowed_subseteq.
Qed.

Lemma restrict_allows sch dir a n d d' b :
  restrict sch dir (Some (a, n)) d = Some d' -> b ∈ d' -> allows dir sch a b.
Proof.
  simpl. destruct (sch_lookup sch a) as [ta|] eqn:E; [|discriminate].
  intros [= <-] Hb. exists ta. split; [done|].
  by apply elem_of_retain_allowed in Hb as [? _].
Qed.

Lemma cond_restrict_subseteq (c : bool) sch dir nb d d' :
  (if c then restrict sch dir nb d else Some d) = Some d' -> d' ⊆ d.
Proof. destruct c; [apply restrict_subseteq | intros [= <-]; reflexivity]. Qed.

Lemma update_cell_subseteq sch t x y d d' : update_cell sch t x y d = Some d' -> d' ⊆ d.
Proof.
  unfold update_cell. destruct (tile_at t x y).
  - intros [= <-]. apply list_subseteq_nil.
  - intros H.
    apply bind_Some in H as (d1 & E1 & H). apply bind_Some in H as (d2 & E2 & H).
    apply bind_Some in H as (d3 & E3 & E4).
    apply cond_restrict_subseteq in E1, E2, E3, E4.
    etrans; [exact E4|]. etrans; [exact E3|]. etrans; [exact E2|]. exact E1.
Qed.

Lemma update_cell_collapsed sch t x y d p :
  tile_at t x y = Some p -> update_cell sch t x y d = Some [].
Proof. intros Ht. unfold update_cell. by rewrite Ht. Qed.

Lemma update_cell_allows sch t x y d d' :
  tile_at t x y = None -> update_cell sch t x y d = Some d' -> neighbours_allow sch t x y d'.
Proof.
  intros Ht H. unfold update_cell in H. rewrite Ht in H.
  apply bind_Some in H as (d1 & E1 & H). apply bind_Some in H as (d2 & E2 & H).
  apply bind_Some in H as (d3 & E3 & E4).
  pose proof (cond_restrict_subseteq _ _ _ _ _ _ E2) as S2.
  pose proof (cond_restrict_subseteq _ _ _ _ _ _ E3) as S3.
  pose proof (cond_restrict_subseteq _ _ _ _ _ _ E4) as S4.
  split; [|split; [|split]]; intros a n b Hc Hnb Hb.
  - assert ((0 <=? Z.of_nat x - 1)%Z = true) as Hc' by (apply Z.leb_le; lia).
    rewrite Hc', Hnb in E1. eapply restrict_allows; [exact E1|]. apply S2, S3, S4, Hb.
  - assert ((0 <=? Z.of_nat y - 1)%Z = true) as Hc' by (apply Z.leb_le; lia).
    rewrite Hc', Hnb in E2. eapply restrict_allows; [exact E2|]. apply S3, S4, Hb.
  - assert ((x + 1 <? CHUNK_TILE_LENGTH) = true) as Hc' by (apply Nat.ltb_lt; lia).
    rewrite Hc', Hnb in E3. eapply restrict_allows; [exact E3|]. apply S4, Hb.
  - assert ((y + 1 <? CHUNK_TILE_LENGTH) = true) as Hc' by (apply Nat.ltb_lt; lia).
    rewrite Hc', Hnb in E4. eapply restrict_allows; [exact E4|]. exact Hb.
Qed.

Lemma update_fold_spec sch t l cm cm' :
  NoDup l -> (forall x y, (x, y) ∈ l -> x < CHUNK_TILE_LENGTH /\ y < CHUNK_TILE_LENGTH) ->
  square cm ->
  foldM (fun cm '(x, y) =>
           (d ← update_cell sch t x y (dom_at cm x y) ; Some (set_cell cm x y d))) l cm
    = Some cm' ->
  square cm' /\
  (forall x y, (x, y) ∈ l -> update_cell sch t x y (dom_at cm x y) = Some (dom_at cm' x y)) /\
  (forall x y, (x, y) ∉ l -> dom_at cm' x y = dom_at cm x y).
Proof.
  revert cm. induction l as [|[x y] l IH]; intros cm Hnd Hr Hsq H; simpl in H.
  - injection H as <-. split; [done|]. split; [|done].
    intros x y Hxy. by apply elem_of_nil in Hxy.
  - destruct (update_cell sch t x y (dom_at cm x y)) as [d|] eqn:Ed; [|discriminate].
    simpl in H. apply NoDup_cons in Hnd as [Hni Hnd].
    destruct (Hr x y) as [Hx Hy]; [by apply elem_of_cons; left|].
    destruct (IH (set_cell cm x y d) Hnd) as (Hsq' & Hin & Hout).
    { intros x' y' ?. apply Hr. by apply elem_of_cons; right. }
    { by apply square_set_cell. }
    { exact H. }
    split; [done|]. split.
    + intros x' y' Hxy. apply elem_of_cons in Hxy as [[= -> ->]|Hxy].
      * rewrite Hout by done. unfold dom_at. rewrite cell_set_cell_eq by done. exact Ed.
      * specialize (Hin x' y' Hxy). unfold dom_at in Hin |- *.
        rewrite cell_set_cell_ne in Hin; [exact Hin|]. intros Heq. rewrite Heq in Hni. done.
    + intros x' y' Hxy. apply not_elem_of_cons in Hxy as [Hne Hxy].
      rewrite Hout by done. unfold dom_at. rewrite cell_set_cell_ne; [done|]. congruence.
Qed.

Lemma update_constraint_map_spec st st' :
  square (constraint_map st) -> update_constraint_map st = Some st' ->
  square (constraint_map st') /\ hash st' = hash st /\ schematic st' = schematic st /\
  wfc_tiles st' = wfc_tiles st /\
  (forall x y, x < CHUNK_TILE_LENGTH -> y < CHUNK_TILE_LENGTH ->
     update_cell (schematic st) (wfc_tiles st) x y (dom_at (constraint_map st) x y)
       = Some (dom_at (constraint_map st') x y)).
Proof.
  intros Hsq H. unfold update_constraint_map in H.
  apply bind_Some in H as (cm & Hf & [= <-]).
  destruct (update_fold_spec _ _ _ _ _ NoDup_raster
              (fun x y H => proj1 (elem_of_raster x y) H) Hsq Hf) as (? & Hin & _).
  simpl. split_and!; try done. intros x y Hx Hy. by apply Hin, elem_of_raster.
Qed.

Lemma dom_at_square_subseteq cm cm' :
  square cm -> square cm' ->
  (forall x y, x < CHUNK_TILE_LENGTH -> y < CHUNK_TILE_LENGTH -> dom_at cm' x y ⊆ dom_at cm x y) ->
  forall x y, dom_at cm' x y ⊆ dom_at cm x y.
Proof.
  intros Hsq Hsq' H x y.
  destruct (decide (x < CHUNK_TILE_LENGTH /\ y < CHUNK_TILE_LENGTH)) as [[]|Hn]; [by apply H|].
  unfold dom_at. rewrite (cell_out_of_range _ cm') by done. apply list_subseteq_nil.
Qed.

Lemma entropy_fold_spec cm l acc :
  (forall x y, fst acc = Some (x, y) -> (x, y) ∈ raster /\ dom_at cm x y <> []) ->
  (forall xy, xy ∈ l -> xy ∈ raster) ->
  forall x y, fst (fold_left (entropy_step cm) l acc) = Some (x, y) ->
    (x, y) ∈ raster /\ dom_at cm x y <> [].
Proof.
  revert acc. induction l as [|[x' y'] l IH]; intros acc Hacc Hl; simpl; [exact Hacc|].
  apply IH; [|intros xy Hxy; apply Hl; by apply elem_of_cons; right].
  intros x y. destruct acc as [index lowest]. unfold entropy_step.
  destruct (_ && _) eqn:E; simpl.
  - intros [= -> ->]. split; [apply Hl; by apply elem_of_cons; left|].
    apply andb_prop in E as [E _]. apply Nat.ltb_lt in E. intros Hd.
    rewrite Hd in E. simpl in E. lia.
  - apply Hacc.
Qed.

Lemma lowest_entropy_spec st x y :
  lowest_entropy st = Some (x, y) ->
  x < CHUNK_TILE_LENGTH /\ y < CHUNK_TILE_LENGTH /\ dom_at (constraint_map st) x y <> [].
Proof.
  intros H. apply entropy_fold_spec in H as [Hr Hd].
  - apply elem_of_raster in Hr as [? ?]. done.
  - intros ? ? [=].
  - done.
Qed.

Lemma entropy_fold_uniform cm l i n :
  (forall x y, (x, y) ∈ l -> length (dom_at cm x y) = n) ->
  fold_left (entropy_step cm) l (i, n) = (i, n).
Proof.
  induction l as [|[x y] l IH]; intros Hl; simpl; [done|].
  rewrite Hl by (by apply elem_of_cons; left).
  assert ((0 <? n) && ((n =? 0) || (n <? n)) = false) as ->.
  { destruct n; [done|]. rewrite Nat.ltb_irrefl. done. }
  apply IH. intros x' y' ?. apply Hl. by apply elem_of_cons; right.
Qed.

Lemma lowest_entropy_uniform st n :
  (forall x y, x < CHUNK_TILE_LENGTH -> y < CHUNK_TILE_LENGTH ->
     length (dom_at (constraint_map st) x y) = n) ->
  lowest_entropy st = if 0 <? n then Some (0, 0) else None.
Proof.
  intros Hn. unfold lowest_entropy.
  assert (Hr : raster = (0, 0) :: tail raster) by reflexivity.
  assert (Htl : forall x y, (x, y) ∈ tail raster ->
                  length (dom_at (constraint_map st) x y) = n).
  { intros x y Hxy. assert ((x, y) ∈ raster) as Hin.
    { rewrite Hr. by apply elem_of_cons; right. }
    apply elem_of_raster in Hin as [? ?]. by apply Hn. }
  assert (E0 : entropy_step (constraint_map st) (None, 0) (0, 0)
               = if 0 <? n then (Some (0, 0), n) else (None, 0)).
  { unfold entropy_step. rewrite (Hn 0 0) by (unfold CHUNK_TILE_LENGTH; lia).
    destruct n; reflexivity. }
  rewrite Hr. set (tl := tail raster) in *. clearbody tl. cbn [fold_left].
  rewrite E0. destruct n as [|n]; cbn [Nat.ltb Nat.leb].
  - by rewrite entropy_fold_uniform.
  - by rewrite entropy_fold_uniform.
Qed.

Lemma collapse_tile_elem g st p v n :
  collapse_tile g st p = Some (v, n) -> v ∈ dom_at (constraint_map st) (fst p) (snd p) /\ n = 1.
Proof.
  unfold collapse_tile. intros H. apply bind_Some in H as (r & _ & H).
  apply bind_Some in H as (v' & Hv & [= <- <-]). split; [|done].
  by eapply list_elem_of_lookup_2.
Qed.

Lemma scratch_elem g st k n :
  scratch g st = Some (k, n) -> k ∈ sch_keys (schematic st) /\ n = 1.
Proof.
  unfold scratch. intros H. apply bind_Some in H as (r & _ & H).
  apply bind_Some in H as (k' & Hk & [= <- <-]). split; [|done].
  by eapply list_elem_of_lookup_2.
Qed.

Lemma tile_at_set_cell_eq t x y p :
  square t -> x < CHUNK_TILE_LENGTH -> y < CHUNK_TILE_LENGTH ->
  tile_at (set_cell t x y (Some p)) x y = Some p.
Proof. intros. unfold tile_at. by rewrite cell_set_cell_eq. Qed.

Lemma tile_at_set_cell_ne t x y x' y' p :
  (x, y) <> (x', y') -> tile_at (set_cell t x y p) x' y' = tile_at t x' y'.
Proof. intros. unfold tile_at. by rewrite cell_set_cell_ne. Qed.

(** One collapsing iteration: the pass after setting the chosen cell
    re-establishes the invariant. *)
Lemma collapse_step st px py v st2 :
  square (wfc_tiles st) -> square (constraint_map st) ->
  adjacency_one_way (schematic st) (wfc_tiles st) ->
  keys_only (schematic st) (wfc_tiles st) (constraint_map st) ->
  px < CHUNK_TILE_LENGTH -> py < CHUNK_TILE_LENGTH ->
  v ∈ dom_at (constraint_map st) px py ->
  neighbours_allow (schematic st) (wfc_tiles st) px py (dom_at (constraint_map st) px py) ->
  update_constraint_map (with_tiles st (set_cell (wfc_tiles st) px py (Some (v, 1)))) = Some st2 ->
  schematic st2 = schematic st /\ hash st2 = hash st /\
  wfc_tiles st2 = set_cell (wfc_tiles st) px py (Some (v, 1)) /\
  square (wfc_tiles st2) /\ square (constraint_map st2) /\
  adjacency_one_way (schematic st) (wfc_tiles st2) /\
  keys_only (schematic st) (wfc_tiles st2) (constraint_map st2) /\
  propagated (schematic st) (wfc_tiles st2) (constraint_map st2).
Proof.
  intros Hsqt Hsqc [Hh Hv] [Hkt Hkc] Hpx Hpy Hvd [Nw [Ns [Ne Nn]]] Hu.
  set (t1 := set_cell (wfc_tiles st) px py (Some (v, 1))) in *.
  destruct (update_constraint_map_spec (with_tiles st t1) st2 Hsqc Hu) as (Hsq2 & Hh2 & Hs2 & Ht2 & Hupd).
  simpl in Hh2, Hs2, Ht2, Hupd. rewrite Ht2, Hs2, Hh2.
  assert (Hsq1 : square t1) by (by apply square_set_cell).
  assert (Hp : tile_at t1 px py = Some (v, 1)) by (by apply tile_at_set_cell_eq).
  assert (Hne : forall x y, (px, py) <> (x, y) -> tile_at t1 x y = tile_at (wfc_tiles st) x y)
    by (intros; by apply tile_at_set_cell_ne).
  split_and!; try done.
  - (* pairs: the new tile is checked by the collapsed neighbour *)
    split.
    + intros x y a na b nb Hx Hy Ha Hb.
      destruct (decide ((px, py) = (x, y))) as [[= <- <-]|H1].
      * rewrite Hp in Ha. injection Ha as <- <-. rewrite Hne in Hb by (intros [=]; lia).
        right. eapply Ne; eauto.
      * rewrite Hne in Ha by done.
        destruct (decide ((px, py) = (x + 1, y))) as [[= -> <-]|H2].
        -- rewrite Hp in Hb. injection Hb as <- <-. left.
           eapply Nw; [lia| |exact Hvd]. by replace (x + 1 - 1) with x by lia.
        -- rewrite Hne in Hb by done. by eapply Hh.
    + intros x y a na b nb Hx Hy Ha Hb.
      destruct (decide ((px, py) = (x, y))) as [[= <- <-]|H1].
      * rewrite Hp in Ha. injection Ha as <- <-. rewrite Hne in Hb by (intros [=]; lia).
        right. eapply Nn; eauto.
      * rewrite Hne in Ha by done.
        destruct (decide ((px, py) = (x, y + 1))) as [[= <- ->]|H2].
        -- rewrite Hp in Hb. injection Hb as <- <-. left.
           eapply Ns; [lia| |exact Hvd]. by replace (y + 1 - 1) with y by lia.
        -- rewrite Hne in Hb by done. eapply Hv; [exact Hx|exact Hy|exact Ha|exact Hb].
  - split.
    + intros x y a n Ha.
      destruct (decide ((px, py) = (x, y))) as [[= <- <-]|H1].
      * rewrite Hp in Ha. injection Ha as <- <-. by apply Hkc in Hvd.
      * rewrite Hne in Ha by done. by eapply Hkt.
    + intros x y. etrans; [|apply (Hkc x y)].
      apply dom_at_square_subseteq; [done..|]. intros x' y' Hx Hy.
      eapply update_cell_subseteq. by apply Hupd.
  - split.
    + intros x y p Hx Hy Ht. specialize (Hupd x y Hx Hy).
      rewrite (update_cell_collapsed _ _ _ _ _ _ Ht) in Hupd. by injection Hupd.
    + intros x y Hx Hy Ht. eapply update_cell_allows; [exact Ht|]. by apply Hupd.
Qed.

Lemma propagated_lowest st px py :
  square (constraint_map st) ->
  propagated (schematic st) (wfc_tiles st) (constraint_map st) ->
  lowest_entropy st = Some (px, py) ->
  neighbours_allow (schematic st) (wfc_tiles st) px py (dom_at (constraint_map st) px py).
Proof.
  intros Hsq [Hc Ha] Hl. apply lowest_entropy_spec in Hl as (Hx & Hy & Hd).
  destruct (tile_at (wfc_tiles st) px py) as [p|] eqn:Ht.
  - exfalso. by apply Hd, (Hc _ _ p).
  - by apply Ha.
Qed.

Lemma collapse_loop_S g fuel st :
  collapse_loop g (S fuel) st =
  match lowest_entropy st with
  | Some next =>
      match collapse_tile g st next with
      | Some t =>
          match update_constraint_map
                  (with_tiles st (set_cell (wfc_tiles st) (fst next) (snd next) (Some t))) with
          | Some st2 => collapse_loop g fuel st2
          | None => Panic
          end
      | None => Panic
      end
  | None =>
      match update_constraint_map st with
      | Some st2 => Done st2
      | None => Panic
      end
  end.
Proof. reflexivity. Qed.

Lemma collapse_loop_inv g fuel st st' :
  loop_inv st -> collapse_loop g fuel st = Done st' ->
  schematic st' = schematic st /\ square (wfc_tiles st') /\
  adjacency_one_way (schematic st) (wfc_tiles st') /\
  (forall x y a n, tile_at (wfc_tiles st') x y = Some (a, n) -> a ∈ sch_keys (schematic st)).
Proof.
  revert st. induction fuel as [|fuel IH]; intros st (Hsqt & Hsqc & Hadj & Hk & Hn) H;
    [discriminate|]. rewrite collapse_loop_S in H.
  destruct (lowest_entropy st) as [[px py]|] eqn:El.
  - destruct (collapse_tile g st (px, py)) as [[v n]|] eqn:Ec; [|discriminate].
    apply collapse_tile_elem in Ec as [Hvd ->]. cbn [fst snd] in Hvd, H.
    destruct (update_constraint_map _) as [st2|] eqn:Eu; [|discriminate].
    pose proof (lowest_entropy_spec _ _ _ El) as (Hx & Hy & _).
    destruct (collapse_step st px py v st2) as (Hs2 & _ & _ & Hsq2 & Hsqc2 & Hadj2 & Hk2 & Hp2);
      auto.
    destruct (IH st2) as (Hs' & Hsq' & Hadj' & Hk'); [|exact H|].
    + unfold loop_inv. rewrite Hs2. split_and!; try done. intros px' py' El'.
      apply (propagated_lowest st2) in El'; [|done|by rewrite Hs2].
      by rewrite Hs2 in El'.
    + rewrite Hs', Hs2 in *. split_and!; done.
  - destruct (update_constraint_map st) as [st2|] eqn:Eu; [|discriminate].
    injection H as <-.
    destruct (update_constraint_map_spec _ _ Hsqc Eu) as (_ & _ & -> & -> & _).
    split_and!; try done. apply Hk.
Qed.

Lemma cell_repeat_dflt {A} (a : A) x y :
  cell a (repeat (repeat a CHUNK_TILE_LENGTH) CHUNK_TILE_LENGTH) x y = a.
Proof.
  destruct (decide (x < CHUNK_TILE_LENGTH /\ y < CHUNK_TILE_LENGTH)) as [[]|Hn].
  - by apply cell_repeat.
  - apply cell_out_of_range; [apply square_repeat|done].
Qed.

(** The state entering the loop: [scratch] has set the cell [(0, 0)]. *)
Lemma scratched_loop_inv hasher rs world_seed sch c k :
  k ∈ sch_keys sch ->
  loop_inv (with_tiles (wfc_init hasher rs world_seed sch c)
              (set_cell (wfc_tiles (wfc_init hasher rs world_seed sch c)) 0 0 (Some (k, 1)))).
Proof.
  intros Hk. unfold loop_inv, with_tiles, wfc_init.
  cbn [wfc_tiles constraint_map schematic hash coords].
  set (t0 := set_cell (repeat (repeat None CHUNK_TILE_LENGTH) CHUNK_TILE_LENGTH) 0 0
               (Some (k, 1))).
  assert (Hsq0 : square t0) by (apply square_set_cell, square_repeat).
  assert (Hne : forall x y, (0, 0) <> (x, y) -> tile_at t0 x y = None).
  { intros x y H. unfold t0. rewrite tile_at_set_cell_ne by done.
    apply cell_repeat_dflt. }
  assert (Hs : forall x y p, tile_at t0 x y = Some p -> (x, y) = (0, 0)).
  { intros x y p H. destruct (decide ((0, 0) = (x, y))) as [<-|H']; [done|].
    rewrite Hne in H by done. discriminate. }
  split_and!.
  - done.
  - apply square_repeat.
  - split; intros x y a na b nb _ _ Ha Hb; apply Hs in Ha, Hb; injection Ha; injection Hb; lia.
  - split.
    + intros x y a n Ha. pose proof (Hs _ _ _ Ha) as Hxy. injection Hxy as -> ->.
      unfold t0 in Ha. rewrite tile_at_set_cell_eq in Ha; [|apply square_repeat|cbv; lia..].
      by injection Ha as -> _.
    + intros x y b Hb. unfold dom_at in Hb.
      destruct (decide (x < CHUNK_TILE_LENGTH /\ y < CHUNK_TILE_LENGTH)) as [[]|Hn].
      * rewrite cell_repeat in Hb by done. unfold init_constraints in Hb.
        by apply elem_of_hs_collect in Hb as [? _].
      * rewrite cell_out_of_range in Hb; [by apply elem_of_nil in Hb|apply square_repeat|done].
  - intros px py Hl.
    rewrite (lowest_entropy_uniform _ (length (init_constraints rs sch))) in Hl.
    2:{ intros x y Hx Hy. cbn [constraint_map with_tiles wfc_init]. unfold dom_at.
        by rewrite cell_repeat. }
    destruct (0 <? _); [|discriminate]. injection Hl as <- <-.
    split_and!; intros a n b Hc Ht; [lia|lia| |].
    + rewrite Hne in Ht by (intros [=]). discriminate.
    + rewrite Hne in Ht by (intros [=]). discriminate.
Qed.

(** Every grid the generator returns: collapsed tiles are keys of the
    schematic and every adjacent pair passes the check of one of its two
    tiles. *)
Lemma generate_spec hasher g rs world_seed sch c grid :
  generate hasher g rs world_seed sch c = Done grid ->
  square grid /\ adjacency_one_way sch grid /\
  (forall x y a n, tile_at grid x y = Some (a, n) -> a ∈ sch_keys sch).
Proof.
  unfold generate, collapse, collapse_fuel.
  destruct (scratch g _) as [[k n]|] eqn:Es; [|discriminate].
  apply scratch_elem in Es as [Hk ->]. cbn [schematic wfc_init] in Hk.
  destruct (collapse_loop _ _ _) as [st'| |] eqn:El; try discriminate.
  intros [= <-].
  apply collapse_loop_inv in El as (_ & Hsq & Hadj & Hks); [|by apply scratched_loop_inv].
  done.
Qed.

(** ** Counting cells with nonempty domains *)

Lemma filter_length_le_lookup {A B} (P : A -> Prop) (Q : B -> Prop)
    `{HP : forall x, Decision (P x)} `{HQ : forall x, Decision (Q x)} (l1 : list A) (l2 : list B) :
  length l1 = length l2 ->
  (forall i a b, l1 !! i = Some a -> l2 !! i = Some b -> Q b -> P a) ->
  length (filter Q l2) <= length (filter P l1).
Proof.
  revert l2. induction l1 as [|a l1 IH]; intros [|b l2] Hl Hq; cbn [length] in Hl;
    try discriminate; [done|].
  rewrite !filter_cons.
  assert (Hi := IH l2 ltac:(lia) (fun i => Hq (S i))).
  specialize (Hq 0 a b eq_refl eq_refl).
  destruct (decide (P a)), (decide (Q b)); cbn [length]; try lia. tauto.
Qed.

Lemma filter_length_lt_lookup {A B} (P : A -> Prop) (Q : B -> Prop)
    `{HP : forall x, Decision (P x)} `{HQ : forall x, Decision (Q x)} (l1 : list A) (l2 : list B) :
  length l1 = length l2 ->
  (forall i a b, l1 !! i = Some a -> l2 !! i = Some b -> Q b -> P a) ->
  (exists i a b, l1 !! i = Some a /\ l2 !! i = Some b /\ P a /\ ~ Q b) ->
  length (filter Q l2) < length (filter P l1).
Proof.
  revert l2. induction l1 as [|a l1 IH]; intros [|b l2] Hl Hq [i (a' & b' & H1 & H2 & Pa & Qb)];
    cbn [length] in Hl; try discriminate; try by destruct i.
  rewrite !filter_cons. destruct i as [|i].
  - injection H1 as <-. injection H2 as <-.
    pose proof (filter_length_le_lookup P Q l1 l2 ltac:(lia) (fun i => Hq (S i))).
    destruct (decide (P a)), (decide (Q b)); cbn [length]; try lia; tauto.
  - assert (Hi := IH l2 ltac:(lia) (fun i => Hq (S i))
                   (ex_intro _ i (ex_intro _ a' (ex_intro _ b' (conj H1 (conj H2 (conj Pa Qb))))))).
    specialize (Hq 0 a b eq_refl eq_refl).
    destruct (decide (P a)), (decide (Q b)); cbn [length]; try lia. tauto.
Qed.

Lemma subseteq_nonempty (d d' : list nat) : d' ⊆ d -> 0 < length d' -> 0 < length d.
Proof.
  intros Hs Hl. destruct d' as [|b d']; [simpl in Hl; lia|].
  assert (b ∈ d) as Hb by (apply Hs; by apply elem_of_cons; left).
  destruct d; [by apply elem_of_nil in Hb|simpl; lia].
Qed.

Lemma open_cells_le cm : open_cells cm <= CHUNK_TILE_LENGTH * CHUNK_TILE_LENGTH.
Proof.
  unfold open_cells. etrans; [apply length_filter|].
  rewrite length_raster. unfold CHUNK_TILE_LENGTH. lia.
Qed.

(** ** Termination of the two loops *)

Lemma collapse_loop_bound g fuel st :
  square (wfc_tiles st) -> square (constraint_map st) ->
  open_cells (constraint_map st) < fuel -> collapse_loop g fuel st <> NoFuel.
Proof.
  revert st. induction fuel as [|fuel IH]; intros st Hsqt Hsqc Hf; [lia|].
  rewrite collapse_loop_S.
  destruct (lowest_entropy st) as [[px py]|] eqn:El;
    [|destruct (update_constraint_map st); discriminate].
  destruct (collapse_tile g st (px, py)) as [[v n]|] eqn:Ec; [|discriminate].
  cbn [fst snd].
  destruct (update_constraint_map _) as [st2|] eqn:Eu; [|discriminate].
  pose proof (lowest_entropy_spec _ _ _ El) as (Hx & Hy & Hd).
  set (t1 := set_cell (wfc_tiles st) px py (Some (v, n))) in *.
  destruct (update_constraint_map_spec (with_tiles st t1) st2 Hsqc Eu)
    as (Hsq2 & _ & _ & Ht2 & Hupd). cbn [wfc_tiles with_tiles schematic constraint_map] in *.
  apply IH; [rewrite Ht2; by apply square_set_cell|done|].
  enough (open_cells (constraint_map st2) < open_cells (constraint_map st)) by lia.
  unfold open_cells. apply filter_length_lt_lookup; [done| |].
  - intros i [x y] [x' y'] H1 H2 HQ. rewrite H1 in H2. injection H2 as <- <-.
    apply list_elem_of_lookup_2, elem_of_raster in H1 as [Hx' Hy'].
    apply (subseteq_nonempty _ _ (update_cell_subseteq _ _ _ _ _ _ (Hupd x y Hx' Hy')) HQ).
  - exists (px * CHUNK_TILE_LENGTH + py), (px, py), (px, py).
    rewrite raster_lookup by done. split_and!; try done; cbn [fst snd].
    + destruct (dom_at (constraint_map st) px py); [done|simpl; lia].
    + specialize (Hupd px py Hx Hy).
      rewrite (update_cell_collapsed _ _ _ _ _ (v, n)) in Hupd by (by apply tile_at_set_cell_eq).
      injection Hupd as <-. simpl. lia.
Qed.

Lemma collapse_not_nofuel g st :
  square (wfc_tiles st) -> square (constraint_map st) -> collapse g st <> NoFuel.
Proof.
  intros Hsqt Hsqc. unfold collapse, collapse_fuel.
  destruct (scratch g st) as [t|]; [|discriminate].
  apply collapse_loop_bound; [by apply square_set_cell|done|].
  change (constraint_map (with_tiles st ?t)) with (constraint_map st).
  pose proof (open_cells_le (constraint_map st)).
  unfold collapse_bound, CHUNK_TILE_LENGTH in *. lia.
Qed.

Lemma stitch_loop_S tg fuel k st :
  stitch_loop tg (S fuel) k st =
  match ring_lowest_entropy st with
  | Some next =>
      match ring_collapse_tile tg k st next with
      | Some t =>
          match stitcher_update (with_ring_tiles st (<[next := Some t]> (s_tiles st))) with
          | Some st2 => stitch_loop tg fuel (S k) st2
          | None => Panic
          end
      | None => Panic
      end
  | None => Done (st, k)
  end.
Proof. reflexivity. Qed.

Lemma stitcher_update_spec st st' :
  stitcher_update st = Some st' ->
  s_tiles st' = s_tiles st /\ s_schematic st' = s_schematic st /\
  length (s_constraint_map st') = length (s_constraint_map st) /\
  forall i d', s_constraint_map st' !! i = Some d' ->
    exists d, s_constraint_map st !! i = Some d /\ update_ring_cell st i d = Some d'.
Proof.
  unfold stitcher_update. intros H. apply bind_Some in H as (cm & Hm & [= <-]).
  apply mapM_Some in Hm. cbn [s_tiles s_schematic s_constraint_map with_ring_map].
  split_and!; try done.
  - rewrite <- (Forall2_length _ _ _ Hm). rewrite length_zip, length_seq. lia.
  - intros i d' Hi. eapply Forall2_lookup_r in Hm as ([j d] & Hz & Hf); [|exact Hi].
    apply lookup_zip_Some in Hz as [Hs Hd]. apply lookup_seq in Hs as [-> _].
    exists d. split; [done|]. exact Hf.
Qed.

Lemma elem_of_zip_seq (cm : list (list nat)) i d :
  (i, d) ∈ zip (seq 0 (length cm)) cm -> cm !! i = Some d.
Proof.
  intros H. apply list_elem_of_lookup in H as [j Hj].
  apply lookup_zip_Some in Hj as [Hs Hd]. apply lookup_seq in Hs as [-> _]. exact Hd.
Qed.

Lemma ring_entropy_fold_spec (cm : list (list nat)) l acc :
  (forall i, fst acc = Some i -> exists d, cm !! i = Some d /\ d <> []) ->
  (forall i d, (i, d) ∈ l -> cm !! i = Some d) ->
  forall i, fst (fold_left ring_entropy_step l acc) = Some i ->
    exists d, cm !! i = Some d /\ d <> [].
Proof.
  revert acc. induction l as [|[j d] l IH]; intros acc Hacc Hl; simpl; [exact Hacc|].
  apply IH; [|intros i d' Hd'; apply Hl; by apply elem_of_cons; right].
  intros i. destruct acc as [index lowest]. unfold ring_entropy_step.
  destruct (_ && _) eqn:E; simpl.
  - intros [= ->]. exists d. split; [apply Hl; by apply elem_of_cons; left|].
    apply andb_prop in E as [E _]. apply Nat.ltb_lt in E. intros ->. simpl in E. lia.
  - apply Hacc.
Qed.

Lemma ring_lowest_entropy_spec st i :
  ring_lowest_entropy st = Some i ->
  exists d, s_constraint_map st !! i = Some d /\ d <> [].
Proof.
  intros H. eapply ring_entropy_fold_spec; [| |exact H].
  - intros ? [=].
  - apply elem_of_zip_seq.
Qed.

Lemma update_ring_cell_nil st i d' : update_ring_cell st i [] = Some d' -> d' = [].
Proof. simpl. by intros [= <-]. Qed.

Lemma stitch_loop_bound tg fuel k st :
  length (s_tiles st) = length (s_constraint_map st) ->
  open_ring_cells (s_constraint_map st) < fuel -> stitch_loop tg fuel k st <> NoFuel.
Proof.
  revert k st. induction fuel as [|fuel IH]; intros k st Hl Hf; [lia|].
  rewrite stitch_loop_S.
  destruct (ring_lowest_entropy st) as [idx|] eqn:El; [|discriminate].
  destruct (ring_collapse_tile tg k st idx) as [t|]; [|discriminate].
  destruct (stitcher_update _) as [st2|] eqn:Eu; [|discriminate].
  apply ring_lowest_entropy_spec in El as (d & Hd & Hne).
  pose proof (lookup_lt_Some _ _ _ Hd) as Hidx.
  apply stitcher_update_spec in Eu as (Ht2 & _ & Hl2 & Hupd).
  cbn [s_tiles s_constraint_map with_ring_tiles] in Ht2, Hl2, Hupd.
  apply IH; [rewrite Ht2, length_insert; lia|].
  enough (open_ring_cells (s_constraint_map st2) < open_ring_cells (s_constraint_map st))
    by lia.
  unfold open_ring_cells. apply filter_length_lt_lookup; [done| |].
  - intros i a b Ha Hb HQ. destruct (Hupd i b Hb) as (d0 & Hd0 & Hu).
    rewrite Ha in Hd0. injection Hd0 as <-.
    destruct a as [|x a]; [|simpl; lia].
    apply update_ring_cell_nil in Hu. subst. simpl in HQ. lia.
  - destruct (lookup_lt_is_Some_2 (s_constraint_map st2) idx) as [d2 Hd2]; [lia|].
    exists idx, d, d2. split_and!; try done.
    + destruct d; [done|simpl; lia].
    + destruct (Hupd idx d2 Hd2) as (d0 & Hd0 & Hu). rewrite Hd in Hd0. injection Hd0 as <-.
      destruct d as [|x d]; [done|]. unfold update_ring_cell in Hu. cbn [s_tiles with_ring_tiles] in Hu.
      unfold ring_tile in Hu. rewrite list_lookup_insert_eq in Hu by lia.
      injection Hu as <-. simpl. lia.
Qed.

(** ** Propagation passes only shrink domains *)

Lemma cell_set_cell_cases {A} (dflt : A) g x y a :
  cell dflt (set_cell g x y a) x y = a \/ cell dflt (set_cell g x y a) x y = cell dflt g x y.
Proof.
  unfold cell, set_cell. destruct (g !! x) as [row|] eqn:E; [|right; cbv beta iota; by rewrite E].
  rewrite list_lookup_insert_eq by (eapply lookup_lt_Some; eauto).
  destruct (decide (y < length row)).
  - rewrite list_lookup_insert_eq by done. by left.
  - right. rewrite list_insert_ge by lia. done.
Qed.

Lemma update_fold_subseteq sch t l cm cm' :
  foldM (fun cm '(x, y) =>
           (d ← update_cell sch t x y (dom_at cm x y) ; Some (set_cell cm x y d))) l cm
    = Some cm' ->
  forall x y, dom_at cm' x y ⊆ dom_at cm x y.
Proof.
  revert cm. induction l as [|[x y] l IH]; intros cm H x' y'; simpl in H.
  - injection H as <-. reflexivity.
  - destruct (update_cell sch t x y (dom_at cm x y)) as [d|] eqn:Ed; [|discriminate].
    simpl in H. etrans; [exact (IH _ H x' y')|]. unfold dom_at.
    destruct (decide ((x, y) = (x', y'))) as [[= <- <-]|Hne].
    + destruct (cell_set_cell_cases [] cm x y d) as [-> | ->]; [|reflexivity].
      by apply update_cell_subseteq in Ed.
    + by rewrite cell_set_cell_ne.
Qed.

Lemma restrict_by_tiles_subseteq sch dir hit l c c' :
  restrict_by_tiles sch dir hit l c = Some c' -> c' ⊆ c.
Proof.
  unfold restrict_by_tiles. revert c. induction l as [|[tile tr] l IH]; intros c H; simpl in H.
  - injection H as <-. reflexivity.
  - destruct (hit tr).
    + destruct (sch_lookup sch (texture_id tile)); [|discriminate].
      etrans; [exact (IH _ H)|]. apply retain_allowed_subseteq.
    + exact (IH _ H).
Qed.

Lemma restrict_by_adj_subseteq sch dir hit a c c' :
  restrict_by_adj sch dir hit a c = Some c' -> c' ⊆ c.
Proof.
  destruct a; simpl; [apply restrict_by_tiles_subseteq|intros [= <-]; reflexivity].
Qed.

Lemma restrict_ring_subseteq sch dir t c c' : restrict_ring sch dir t c = Some c' -> c' ⊆ c.
Proof.
  unfold restrict_ring. destruct t as [id|]; [|intros [= <-]; reflexivity].
  destruct (sch_lookup sch id); [|discriminate]. intros [= <-]. apply retain_allowed_subseteq.
Qed.

Ltac shrink_chain :=
  repeat match goal with
  | H : Some _ = Some _ |- _ => injection H as H; subst
  | H : (if ?b then _ else _) = Some _ |- _ => destruct b
  | H : mbind _ _ = Some _ |- _ => apply bind_Some in H as (? & ? & H)
  | H : (match ring_tile ?t ?i with Some _ => _ | None => _ end) = Some _ |- _ =>
      destruct (ring_tile t i)
  | H : None = Some _ |- _ => discriminate H
  | H : restrict_by_adj _ _ _ _ _ = Some _ |- _ => apply restrict_by_adj_subseteq in H
  | H : restrict_by_tiles _ _ _ _ _ = Some _ |- _ => apply restrict_by_tiles_subseteq in H
  | H : restrict_ring _ _ _ _ = Some _ |- _ => apply restrict_ring_subseteq in H
  end;
  repeat match goal with
  | H : ?a ⊆ ?b |- ?a ⊆ ?c => etrans; [exact H|]; clear H
  end;
  try reflexivity.

Lemma restrict_by_chunks_subseteq st side rank c c' :
  restrict_by_chunks st side rank c = Some c' -> c' ⊆ c.
Proof. unfold restrict_by_chunks. intros H. shrink_chain. Qed.

Lemma restrict_by_ring_subseteq st idx side rank c c' :
  restrict_by_ring st idx side rank c = Some c' -> c' ⊆ c.
Proof. unfold restrict_by_ring. intros H. shrink_chain. Qed.

Lemma update_ring_cell_subseteq st idx c c' : update_ring_cell st idx c = Some c' -> c' ⊆ c.
Proof.
  unfold update_ring_cell. destruct c as [|x c]; [intros [= <-]; reflexivity|].
  destruct (ring_tile (s_tiles st) idx); [intros [= <-]; apply list_subseteq_nil|].
  intros H. apply bind_Some in H as (c1 & H1 & H2).
  apply restrict_by_chunks_subseteq in H1. apply restrict_by_ring_subseteq in H2.
  by etrans.
Qed.

(** ** The draws of a run *)

Lemma collapse_loop_ext g1 g2 fuel st :
  (forall n, g1 (hash st) n mod n = g2 (hash st) n mod n) ->
  collapse_loop g1 fuel st = collapse_loop g2 fuel st.
Proof.
  revert st. induction fuel as [|fuel IH]; intros st Hg; [done|].
  rewrite !collapse_loop_S.
  destruct (lowest_entropy st) as [next|]; [|done].
  assert (collapse_tile g1 st next = collapse_tile g2 st next) as ->.
  { unfold collapse_tile, gen_range. by rewrite Hg. }
  destruct (collapse_tile g2 st next) as [t|]; [|done].
  destruct (update_constraint_map _) as [st2|] eqn:Eu; [|done].
  apply IH. unfold update_constraint_map in Eu.
  apply bind_Some in Eu as (? & _ & [= <-]). exact Hg.
Qed.

Lemma generate_ext hasher g1 g2 rs world_seed sch c :
  (forall n, g1 (get_hash hasher world_seed c) n mod n
             = g2 (get_hash hasher world_seed c) n mod n) ->
  generate hasher g1 rs world_seed sch c = generate hasher g2 rs world_seed sch c.
Proof.
  intros Hg. unfold generate, collapse, collapse_fuel.
  assert (scratch g1 (wfc_init hasher rs world_seed sch c)
          = scratch g2 (wfc_init hasher rs world_seed sch c)) as ->.
  { unfold scratch, gen_range. by rewrite Hg. }
  destruct (scratch g2 _); [|done].
  by rewrite (collapse_loop_ext g1 g2).
Qed.

(** ** The stitching pass *)

Lemma stitch_all_clean rs tg sch world k chunks l k' :
  stitch_all rs tg sch world k chunks = Done (l, k') ->
  length l = length chunks /\ Forall (fun ch => ch_dirty ch = false) l.
Proof.
  revert k l k'. induction chunks as [|ch rest IH]; intros k l k' H; cbn [stitch_all] in H.
  - injection H as <- _. split; [done|constructor].
  - destruct (ch_dirty ch) eqn:Ed.
    + destruct (stitch_chunk rs tg sch world k ch) as [[ch' k1]| |] eqn:Es; try discriminate.
      destruct (stitch_all rs tg sch world k1 rest) as [[rest' k2]| |] eqn:Er; try discriminate.
      injection H as <- _. apply IH in Er as [Hl Hf]. split; [simpl; lia|].
      constructor; [|done]. unfold stitch_chunk in Es.
      destruct (stitch _ _ _) as [[st k3]| |]; try discriminate.
      by injection Es as <- _.
    + destruct (stitch_all rs tg sch world k rest) as [[rest' k2]| |] eqn:Er; try discriminate.
      injection H as <- _. apply IH in Er as [Hl Hf]. split; [simpl; lia|].
      by constructor.
Qed.

Lemma lookup_map_Some {A B} (f : A -> B) (l : list A) i a :
  l !! i = Some a -> map f l !! i = Some (f a).
Proof.
  revert i. induction l as [|b l IH]; intros [|i] H; simpl in *; try discriminate.
  - by injection H as ->.
  - by apply IH.
Qed.

(* ================================================================== *)
(** * The claims *)

(** C1 (corrected).  The grid never fails the check of the tile collapsed
    first: for every grid returned by [init] and [collapse], every pair of
    4-adjacent collapsed cells passes at least one of its two checks; when
    the schematic's allow-lists agree with each other in both directions,
    every pair passes all the checks of the spec. *)
Theorem collapse_adjacency hasher g rs world_seed sch c grid :
  generate hasher g rs world_seed sch c = Done grid ->
  adjacency_one_way sch grid /\ (schematic_consistent sch -> adjacency_valid sch grid).
Proof.
  intros H. apply generate_spec in H as (_ & [Hh Hv] & Hk). split; [by split|].
  intros Hc. split.
  - intros x y a na b nb Hx Hy Ha Hb.
    destruct (sch_lookup_keys sch a (Hk _ _ _ _ Ha)) as [ta Hta].
    destruct (sch_lookup_keys sch b (Hk _ _ _ _ Hb)) as [tb Htb].
    destruct (Hc a b ta tb Hta Htb) as [[He Hw] _].
    destruct (Hh x y a na b nb Hx Hy Ha Hb) as [[ta' [Hta' Hab]]|[tb' [Htb' Hba]]].
    + rewrite Hta in Hta'. injection Hta' as <-.
      split; [exists ta; done|exists tb; split; [done|by apply He]].
    + rewrite Htb in Htb'. injection Htb' as <-.
      split; [exists ta; split; [done|by apply Hw]|exists tb; done].
  - intros x y a na b nb Hx Hy Ha Hb.
    destruct (sch_lookup_keys sch a (Hk _ _ _ _ Ha)) as [ta Hta].
    destruct (sch_lookup_keys sch b (Hk _ _ _ _ Hb)) as [tb Htb].
    destruct (Hc a b ta tb Hta Htb) as [_ [Hn Hs]].
    destruct (Hv x y a na b nb Hx Hy Ha Hb) as [[ta' [Hta' Hab]]|[tb' [Htb' Hba]]].
    + rewrite Hta in Hta'. injection Hta' as <-.
      split; [exists ta; done|exists tb; split; [done|by apply Hn]].
    + rewrite Htb in Htb'. injection Htb' as <-.
      split; [exists ta; split; [done|by apply Hs]|exists tb; done].
Qed.

(** Witness of C1: a generated monochrome grid. *)
Lemma collapse_adjacency_witness :
  exists grid,
    generate (fun z => z) (fun _ _ => 0) rs_ascending 42 sch_mono (0%Z, 0%Z) = Done grid /\
    adjacency_one_way sch_mono grid /\
    (schematic_consistent sch_mono -> adjacency_valid sch_mono grid).
Proof.
  let v := eval vm_compute in
    (generate (fun z => z) (fun _ _ => 0) rs_ascending 42 sch_mono (0%Z, 0%Z)) in
  match v with
  | Done ?gr =>
      assert (E : generate (fun z => z) (fun _ _ => 0) rs_ascending 42 sch_mono (0%Z, 0%Z)
                  = Done gr) by (vm_compute; reflexivity);
      exists gr; split; [exact E|exact (collapse_adjacency _ _ _ _ _ _ _ E)]
  end.
Defined.

(** Counterexample to C1: with a tile type whose west allow-list is empty,
    every run returns the grid of that tile everywhere, whose horizontal
    pairs fail the west check. *)
Lemma one_way_schematic_grid :
  exists grid,
    (forall hasher g world_seed c,
       generate hasher g rs_ascending world_seed sch_one_way c = Done grid) /\
    tile_at grid 0 0 = Some (0, 1) /\ tile_at grid 1 0 = Some (0, 1) /\
    ~ allows west sch_one_way 0 0 /\ ~ adjacency_valid sch_one_way grid.
Proof.
  assert (Hw : ~ allows west sch_one_way 0 0).
  { intros [ta [H1 H2]]. simpl in H1. injection H1 as <-. simpl in H2.
    by apply elem_of_nil in H2. }
  exists (repeat (repeat (Some (0, 1)) 8) 8). split_and!.
  - intros hasher g world_seed c. vm_compute. reflexivity.
  - reflexivity.
  - reflexivity.
  - exact Hw.
  - intros [Hh _]. apply Hw. apply (Hh 0 0 0 1 0 1); [cbv; lia|cbv; lia|reflexivity|reflexivity].
Qed.

(** C2 (code bug).  Two runs with the same seed, coordinate and schematic
    but different [RandomState]s of the domain [HashSet]s return different
    grids: [collapse_tile] indexes the domain in its iteration order. *)
Theorem hashset_order_changes_grid hasher g world_seed c :
  iteration_order rs_ascending /\ iteration_order rs_swapped /\
  generate hasher g rs_ascending world_seed sch_mono c
    <> generate hasher g rs_swapped world_seed sch_mono c.
Proof.
  split_and!.
  - split; [apply (bool_decide_unpack _); vm_compute; reflexivity|].
    intros x Hx. apply list_elem_of_In, in_seq. lia.
  - split; [apply (bool_decide_unpack _); vm_compute; reflexivity|].
    intros x Hx. apply list_elem_of_In. unfold rs_swapped.
    destruct x as [|[|x]]; cbn [In]; [tauto|tauto|]. right; right. apply in_seq. lia.
  - set (h0 := get_hash hasher world_seed c).
    remember (g h0 2 mod 2) as r eqn:Er.
    assert (Hr : r < 2) by (subst r; apply Nat.mod_upper_bound; lia).
    set (g' := fun (_ : Z) n => if n =? 2 then r else g h0 n).
    assert (Hg : forall n, g h0 n mod n = g' h0 n mod n).
    { intros n. unfold g'. destruct (Nat.eqb_spec n 2) as [->|]; [|done].
      rewrite Er. by rewrite Nat.Div0.mod_mod. }
    rewrite !(generate_ext hasher g g') by exact Hg.
    unfold g'. clear g' Hg Er.
    destruct r as [|[|r]]; [| |lia]; vm_compute; discriminate.
Qed.

(** C3 (code bug).  [get_chunks_in_range] returns 31 coordinates, the first
    six of them [(0, 0)]: the [Vec] is created with [(2R) ^ 2] default
    entries ([^] is exclusive or) before the 25 coordinates of the square are
    pushed. *)
Theorem chunks_in_range_prefilled pos :
  length (get_chunks_in_range pos) = 31 /\
  firstn 6 (get_chunks_in_range pos) = repeat (0%Z, 0%Z) 6 /\
  ~ NoDup (get_chunks_in_range pos).
Proof.
  split_and!; [reflexivity|reflexivity|].
  intros Hnd.
  change (get_chunks_in_range pos)
    with ((0%Z, 0%Z) :: (0%Z, 0%Z) :: skipn 2 (get_chunks_in_range pos)) in Hnd.
  apply NoDup_cons in Hnd as [Hn _]. apply Hn. by apply elem_of_cons; left.
Qed.

(** C4 (corrected).  The pass marks every chunk it processes clean, whether
    or not its neighbours exist: after [gen_chunk_stitches] no chunk is
    dirty. *)
Theorem stitch_pass_clears_dirty rs tg sch world k world' k' :
  gen_chunk_stitches rs tg (Loaded sch) world k = Done (world', k') ->
  length world' = length world /\ Forall (fun ch => ch_dirty ch = false) world'.
Proof.
  unfold gen_chunk_stitches. destruct (forallb _ world) eqn:Ef.
  - intros [= <- _]. split; [done|]. apply Forall_forall. intros ch Hch.
    apply forallb_forall with (x := ch) in Ef; [|by apply list_elem_of_In].
    by apply negb_true_iff in Ef.
  - apply stitch_all_clean.
Qed.

(** Witness of C4: a chunk alone in the world. *)
Lemma stitch_pass_clears_dirty_witness :
  exists world',
    gen_chunk_stitches rs_ascending (fun _ => 0) (Loaded sch_edge) [lone_chunk] 0
      = Done (world', 0) /\
    length world' = 1 /\ Forall (fun ch => ch_dirty ch = false) world'.
Proof.
  let v := eval vm_compute in
    (gen_chunk_stitches rs_ascending (fun _ => 0) (Loaded sch_edge) [lone_chunk] 0) in
  match v with
  | Done (?w, _) =>
      assert (E : gen_chunk_stitches rs_ascending (fun _ => 0) (Loaded sch_edge) [lone_chunk] 0
                  = Done (w, 0)) by (vm_compute; reflexivity);
      exists w; split; [exact E|exact (stitch_pass_clears_dirty _ _ _ _ _ _ _ E)]
  end.
Defined.

(** Counterexample to C4: a dirty chunk with no neighbour on any side is
    marked clean by the pass, whatever the random state. *)
Lemma lone_chunk_cleared :
  exists world' k',
    ch_dirty lone_chunk = true /\
    get_connected_chunks (chunk_coords_of (ch_translation lone_chunk)) [lone_chunk]
      = {| adj_north := None; adj_east := None; adj_south := None; adj_west := None |} /\
    (forall rs tg, gen_chunk_stitches rs tg (Loaded sch_edge) [lone_chunk] 0 = Done (world', k')) /\
    map ch_dirty world' = [false].
Proof.
  let v := eval vm_compute in
    (gen_chunk_stitches rs_ascending (fun _ => 0) (Loaded sch_edge) [lone_chunk] 0) in
  match v with
  | Done (?w, ?k) => exists w, k
  end.
  split_and!; [reflexivity|reflexivity| |reflexivity].
  intros rs tg. vm_compute. reflexivity.
Qed.

(** C5 (code bug).  The own-chunk check of the north ring does not use the
    bordering interior tile's north allow-list: at ring position 7 (north
    side, rank 7) the bordering tile (6, 7) is of type 0, whose north list is
    [[0]], yet the pass narrows the domain [[0; 1]] to [[1]], the south list
    of type 0 (of the tile (0, 1), which the check matches by comparing
    chunk-relative tile positions with world coordinates). *)
Theorem own_edge_check_uses_south :
  exists st',
    stitcher_update edge_stitcher = Some st' /\
    adj_north (s_adj edge_stitcher) <> None /\
    bordering_cell 0 7 = (6, 7) /\ tile_at edge_grid 6 7 = Some (0, 1) /\
    ring_dom (s_constraint_map edge_stitcher) 7 = [0; 1] /\
    ring_dom (s_constraint_map st') 7 = [1] /\
    ~ allows (outward 0) sch_edge 0 1 /\ allows south sch_edge 0 1.
Proof.
  let v := eval vm_compute in (stitcher_update edge_stitcher) in
  match v with
  | Some ?s => exists s
  end.
  split_and!; try (vm_compute; reflexivity); try discriminate.
  - intros [ta [H1 H2]]. simpl in H1. injection H1 as <-. simpl in H2.
    apply list_elem_of_singleton in H2. discriminate.
  - eexists. split; [reflexivity|]. simpl. by apply list_elem_of_singleton.
Qed.

(** C6 (code bug).  The first iteration of the loop chooses the cell
    [(0, 0)], which [scratch] has already collapsed: no propagation pass runs
    before the loop, so all domains still have the same size and the scan
    stops at the first cell. *)
Theorem first_iteration_recollapses_origin hasher g rs world_seed sch c t :
  scratch g (wfc_init hasher rs world_seed sch c) = Some t ->
  init_constraints rs sch <> [] ->
  tile_at (wfc_tiles (with_tiles (wfc_init hasher rs world_seed sch c)
             (set_cell (wfc_tiles (wfc_init hasher rs world_seed sch c)) 0 0 (Some t)))) 0 0
    = Some t /\
  lowest_entropy (with_tiles (wfc_init hasher rs world_seed sch c)
             (set_cell (wfc_tiles (wfc_init hasher rs world_seed sch c)) 0 0 (Some t)))
    = Some (0, 0) /\
  dom_at (constraint_map (wfc_init hasher rs world_seed sch c)) 0 0 = init_constraints rs sch.
Proof.
  intros _ Hne. unfold with_tiles, wfc_init. cbn [wfc_tiles constraint_map].
  split_and!.
  - apply tile_at_set_cell_eq; [apply square_repeat|cbv; lia|cbv; lia].
  - rewrite (lowest_entropy_uniform _ (length (init_constraints rs sch))).
    + destruct (init_constraints rs sch); [done|reflexivity].
    + intros x y Hx Hy. cbn [constraint_map]. unfold dom_at. by rewrite cell_repeat.
  - unfold dom_at. apply cell_repeat; cbv; lia.
Qed.

(** Witness of C6. *)
Lemma first_iteration_recollapses_origin_witness :
  tile_at (wfc_tiles (with_tiles (wfc_init (fun z => z) rs_ascending 42 sch_mono (0%Z, 0%Z))
             (set_cell (wfc_tiles (wfc_init (fun z => z) rs_ascending 42 sch_mono (0%Z, 0%Z)))
                0 0 (Some (0, 1))))) 0 0 = Some (0, 1) /\
  lowest_entropy (with_tiles (wfc_init (fun z => z) rs_ascending 42 sch_mono (0%Z, 0%Z))
             (set_cell (wfc_tiles (wfc_init (fun z => z) rs_ascending 42 sch_mono (0%Z, 0%Z)))
                0 0 (Some (0, 1)))) = Some (0, 0) /\
  dom_at (constraint_map (wfc_init (fun z => z) rs_ascending 42 sch_mono (0%Z, 0%Z))) 0 0
    = init_constraints rs_ascending sch_mono.
Proof.
  apply (first_iteration_recollapses_origin (fun z => z) (fun _ _ => 0)).
  - vm_compute. reflexivity.
  - vm_compute. discriminate.
Defined.

(** C7.  Every interior cell of a spawned chunk yields one tile: the tile
    of the cell's position carries the identifier the generator collapsed
    the cell to (a key of the schematic), or [not_found] for a cell left
    [None]. *)
Theorem spawned_tiles_complete hasher g rs sch c ch :
  spawn_chunk hasher g rs sch c = Done ch ->
  exists grid,
    generate hasher g rs WORLD_SEED sch c = Done grid /\
    length (ch_children ch) = CHUNK_TILE_LENGTH * CHUNK_TILE_LENGTH /\
    forall x y, x < CHUNK_TILE_LENGTH -> y < CHUNK_TILE_LENGTH ->
      exists id,
        ch_children ch !! (x * CHUNK_TILE_LENGTH + y)
          = Some ({| texture_id := id |},
                  ((Z.of_nat x * TILE_SIZE + TILE_SIZE / 2 - CHUNK_SIZE / 2)%Z,
                   (Z.of_nat y * TILE_SIZE + TILE_SIZE / 2 - CHUNK_SIZE / 2)%Z)) /\
        ((exists n, tile_at grid x y = Some (id, n) /\ id ∈ sch_keys sch) \/
         (tile_at grid x y = None /\ id = not_found sch)).
Proof.
  unfold spawn_chunk.
  destruct (generate hasher g rs WORLD_SEED sch c) as [grid| |] eqn:Eg; try discriminate.
  intros [= <-]. exists grid. split; [done|]. cbn [ch_children]. split.
  - unfold interior_children. rewrite length_map. reflexivity.
  - intros x y Hx Hy. unfold interior_children.
    rewrite (lookup_map_Some _ _ _ (x, y)) by (by apply raster_lookup).
    apply generate_spec in Eg as (_ & _ & Hk).
    destruct (tile_at grid x y) as [[a n]|] eqn:Et.
    + exists a. split; [done|]. left. exists n. split; [done|]. by eapply Hk.
    + exists (not_found sch). split; [done|]. by right.
Qed.

(** Witness of C7. *)
Lemma spawned_tiles_complete_witness :
  exists ch,
    spawn_chunk (fun z => z) (fun _ _ => 0) rs_ascending sch_mono (0%Z, 0%Z) = Done ch /\
    exists grid,
      generate (fun z => z) (fun _ _ => 0) rs_ascending WORLD_SEED sch_mono (0%Z, 0%Z)
        = Done grid /\
      length (ch_children ch) = CHUNK_TILE_LENGTH * CHUNK_TILE_LENGTH /\
      forall x y, x < CHUNK_TILE_LENGTH -> y < CHUNK_TILE_LENGTH ->
        exists id,
          ch_children ch !! (x * CHUNK_TILE_LENGTH + y)
            = Some ({| texture_id := id |},
                    ((Z.of_nat x * TILE_SIZE + TILE_SIZE / 2 - CHUNK_SIZE / 2)%Z,
                     (Z.of_nat y * TILE_SIZE + TILE_SIZE / 2 - CHUNK_SIZE / 2)%Z)) /\
          ((exists n, tile_at grid x y = Some (id, n) /\ id ∈ sch_keys sch_mono) \/
           (tile_at grid x y = None /\ id = not_found sch_mono)).
Proof.
  let v := eval vm_compute in
    (spawn_chunk (fun z => z) (fun _ _ => 0) rs_ascending sch_mono (0%Z, 0%Z)) in
  match v with
  | Done ?ch =>
      assert (E : spawn_chunk (fun z => z) (fun _ _ => 0) rs_ascending sch_mono (0%Z, 0%Z)
                  = Done ch) by (vm_compute; reflexivity);
      exists ch; split; [exact E|exact (spawned_tiles_complete _ _ _ _ _ _ E)]
  end.
Defined.

(** C8.  The chunk hash depends on the coordinates only through their sum:
    chunks whose coordinates have the same sum get the same hash, hence the
    same RNG seed and the same first draw. *)
Theorem get_hash_coordinate_sum hasher g rs world_seed sch c1 c2 :
  (fst c1 + snd c1 = fst c2 + snd c2)%Z ->
  get_hash hasher world_seed c1 = get_hash hasher world_seed c2 /\
  hash (wfc_init hasher rs world_seed sch c1) = hash (wfc_init hasher rs world_seed sch c2) /\
  scratch g (wfc_init hasher rs world_seed sch c1) = scratch g (wfc_init hasher rs world_seed sch c2).
Proof.
  intros H.
  assert (E : get_hash hasher world_seed c1 = get_hash hasher world_seed c2)
    by (unfold get_hash; by rewrite H).
  split_and!; [exact E|exact E|].
  unfold scratch, wfc_init. cbn [hash schematic]. by rewrite E.
Qed.

(** Witness of C8: the chunks at [(1, 2)] and [(3, 0)]. *)
Lemma get_hash_coordinate_sum_witness :
  (fst (1, 2) + snd (1, 2) = fst (3, 0) + snd (3, 0))%Z /\
  get_hash (fun z => z) 42 (1%Z, 2%Z) = get_hash (fun z => z) 42 (3%Z, 0%Z).
Proof.
  split; [reflexivity|].
  apply (proj1 (get_hash_coordinate_sum (fun z => z) (fun _ _ => 0) rs_ascending 42 sch_mono
                  (1%Z, 2%Z) (3%Z, 0%Z) eq_refl)).
Defined.

(** C9.  A propagation pass never adds a value to a domain, in the interior
    generator and in the stitcher. *)
Theorem propagation_shrinks_domains :
  (forall st st', update_constraint_map st = Some st' ->
     forall x y, dom_at (constraint_map st') x y ⊆ dom_at (constraint_map st) x y) /\
  (forall st st', stitcher_update st = Some st' ->
     forall i, ring_dom (s_constraint_map st') i ⊆ ring_dom (s_constraint_map st) i).
Proof.
  split.
  - intros st st' H. unfold update_constraint_map in H.
    apply bind_Some in H as (cm & Hf & [= <-]). exact (update_fold_subseteq _ _ _ _ _ Hf).
  - intros st st' H i. apply stitcher_update_spec in H as (_ & _ & _ & Hs).
    unfold ring_dom. destruct (s_constraint_map st' !! i) as [d'|] eqn:Ei;
      [|apply list_subseteq_nil].
    destruct (Hs i d' Ei) as (d & -> & Hu). by apply update_ring_cell_subseteq in Hu.
Qed.

(** Witness of C9: the first pass of a chunk and of the stitcher of
    [edge_stitcher]. *)
Lemma propagation_shrinks_domains_witness :
  (exists st',
     update_constraint_map (wfc_init (fun z => z) rs_ascending 42 sch_mono (0%Z, 0%Z)) = Some st' /\
     forall x y, dom_at (constraint_map st') x y
                 ⊆ dom_at (constraint_map (wfc_init (fun z => z) rs_ascending 42 sch_mono (0%Z, 0%Z))) x y) /\
  (exists st',
     stitcher_update edge_stitcher = Some st' /\
     forall i, ring_dom (s_constraint_map st') i ⊆ ring_dom (s_constraint_map edge_stitcher) i).
Proof.
  split.
  - let v := eval vm_compute in
      (update_constraint_map (wfc_init (fun z => z) rs_ascending 42 sch_mono (0%Z, 0%Z))) in
    match v with
    | Some ?s =>
        assert (E : update_constraint_map (wfc_init (fun z => z) rs_ascending 42 sch_mono (0%Z, 0%Z))
                    = Some s) by (vm_compute; reflexivity);
        exists s; split; [exact E|exact (proj1 propagation_shrinks_domains _ _ E)]
    end.
  - let v := eval vm_compute in (stitcher_update edge_stitcher) in
    match v with
    | Some ?s =>
        assert (E : stitcher_update edge_stitcher = Some s) by (vm_compute; reflexivity);
        exists s; split; [exact E|exact (proj2 propagation_shrinks_domains _ _ E)]
    end.
Defined.

(** C10.  Both loops end, with a result or a panic, within their bounds:
    [collapse] makes at most [L * L] collapsing iterations before the one
    that finds no open cell, and [stitch] at most [4 L + 4]; neither run
    exhausts its fuel. *)
Theorem loops_terminate hasher g rs world_seed sch c tg k rs' c' chunk adj :
  collapse g (wfc_init hasher rs world_seed sch c) <> NoFuel /\
  stitch tg k (stitcher_init rs' sch c' chunk adj) <> NoFuel.
Proof.
  split.
  - apply collapse_not_nofuel; apply square_repeat.
  - unfold stitch, stitch_bound. apply stitch_loop_bound;
      unfold stitcher_init; cbn [s_tiles s_constraint_map];
      unfold init_stitching_constaints.
    + rewrite length_repeat', length_map, length_seq. reflexivity.
    + unfold open_ring_cells. eapply Nat.le_lt_trans; [apply length_filter|].
      rewrite length_map, length_seq. lia.
Qed.

(* ------------------------------------------------------------------ *)
(** * Further properties of the code *)


(** ** Ring geometry *)

Lemma map_fmap_eq {A B} (f : A -> B) (l : list A) : map f l = f <$> l.
Proof. induction l as [|a l IH]; simpl; [done|]. by rewrite IH. Qed.

Lemma perimeter_shift c s r :
  get_perimeter_world_coord c s r
  = (fst c + fst (get_perimeter_world_coord (0, 0)%Z s r),
     snd c + snd (get_perimeter_world_coord (0, 0)%Z s r))%Z.
Proof.
  destruct c as [cx cy]. unfold get_perimeter_world_coord.
  repeat case_match; cbn [fst snd]; f_equal; lia.
Qed.

(** X1: the 36 perimeter coordinates of a chunk are distinct, and each
    lies one tile outside the chunk's 8 by 8 tiles, on the ring of the
    10 by 10 square around them. *)
Theorem perimeter_ring c :
  NoDup (map (fun idx => get_perimeter_world_coord c
                           (Z.of_nat (idx / (CHUNK_TILE_LENGTH + 1)))
                           (Z.of_nat (idx mod (CHUNK_TILE_LENGTH + 1))))
             (seq 0 RING_LENGTH)) /\
  forall idx, idx < RING_LENGTH ->
    exists i j,
      get_perimeter_world_coord c (Z.of_nat (idx / (CHUNK_TILE_LENGTH + 1)))
                                  (Z.of_nat (idx mod (CHUNK_TILE_LENGTH + 1)))
        = (fst c + TILE_SIZE * i, snd c + TILE_SIZE * j)%Z /\
      (-1 <= i <= Z.of_nat CHUNK_TILE_LENGTH)%Z /\ (-1 <= j <= Z.of_nat CHUNK_TILE_LENGTH)%Z /\
      (i = -1 \/ i = Z.of_nat CHUNK_TILE_LENGTH \/ j = -1 \/ j = Z.of_nat CHUNK_TILE_LENGTH)%Z.
Proof.
  split.
  - erewrite map_ext by (intros idx; apply perimeter_shift).
    rewrite <- (map_map (fun idx => get_perimeter_world_coord (0, 0)%Z
                           (Z.of_nat (idx / (CHUNK_TILE_LENGTH + 1)))
                           (Z.of_nat (idx mod (CHUNK_TILE_LENGTH + 1))))
                        (fun o => (fst c + fst o, snd c + snd o)%Z)).
    rewrite map_fmap_eq. apply NoDup_fmap_2.
    + intros [a b] [a' b'] [= Ha Hb]. f_equal; lia.
    + apply (bool_decide_unpack _). vm_compute. reflexivity.
  - intros idx Hidx. rewrite perimeter_shift.
    assert (HQ : Forall (fun p =>
              (fst p mod 32 = 0 /\ snd p mod 32 = 0 /\
               -32 <= fst p <= 256 /\ -32 <= snd p <= 256 /\
               (fst p = -32 \/ fst p = 256 \/ snd p = -32 \/ snd p = 256))%Z)
              (map (fun idx => get_perimeter_world_coord (0, 0)%Z
                         (Z.of_nat (idx / (CHUNK_TILE_LENGTH + 1)))
                         (Z.of_nat (idx mod (CHUNK_TILE_LENGTH + 1))))
                   (seq 0 RING_LENGTH)))
      by (apply (bool_decide_unpack _); vm_compute; reflexivity).
    rewrite Forall_map, Forall_forall in HQ.
    specialize (HQ idx ltac:(apply list_elem_of_In, in_seq; lia)). cbv beta in HQ.
    set (p := get_perimeter_world_coord (0, 0)%Z _ _) in *.
    exists (fst p / 32)%Z, (snd p / 32)%Z. unfold TILE_SIZE, CHUNK_TILE_LENGTH.
    clearbody p. destruct p as [a b]; cbn [fst snd] in *.
    destruct HQ as (Ha & Hb & Hc & Hd & He).
    apply Z.mod_divide in Ha as [qa ->]; [|lia]. apply Z.mod_divide in Hb as [qb ->]; [|lia].
    rewrite !Z.div_mul by lia. change (Z.of_nat 8) with 8%Z. split; [f_equal; lia|lia].
Qed.

(** ** Selection of the lowest entropy *)

Section ArgMin.

Context {K J : Type}.
Variable key : K -> J.
Variable w : K -> nat.
Variable step : option J * nat -> K -> option J * nat.
Hypothesis Hstep : forall index lowest k,
  step (index, lowest) k =
  if (0 <? w k) && ((lowest =? 0) || (w k <? lowest)) then (Some (key k), w k) else (index, lowest).

Definition argmin_inv (l : list K) (acc : option J * nat) : Prop :=
  (fst acc = None /\ snd acc = 0 /\ forall j k', l !! j = Some k' -> w k' = 0) \/
  (exists i k, fst acc = Some (key k) /\ snd acc = w k /\ 0 < w k /\ l !! i = Some k /\
     forall j k', l !! j = Some k' -> 0 < w k' -> w k <= w k' /\ (j < i -> w k < w k')).

Lemma argmin_fold l : argmin_inv l (fold_left step l (None, 0)).
Proof using Hstep.
  induction l as [|x l IH] using rev_ind.
  - left. split_and!; [done|done|]. intros j k' H. by rewrite lookup_nil in H.
  - rewrite fold_left_app. cbn [fold_left].
    destruct (fold_left step l (None, 0)) as [index lowest] eqn:Ef.
    rewrite Hstep.
    destruct IH as [(Hi & Hl & Hz)|(i & k & Hi & Hl & Hp & Hk & Hm)];
      cbn [fst snd] in *; subst.
    + destruct (0 <? w x) eqn:Ex; cbn [andb orb].
      * right. exists (length l), x. apply Nat.ltb_lt in Ex.
        split_and!; [done|done|done|by apply list_lookup_middle|].
        intros j k' Hj Hw. apply lookup_snoc_Some in Hj as [[Hj Hj']|[-> <-]].
        -- specialize (Hz _ _ Hj'). lia.
        -- lia.
      * left. apply Nat.ltb_ge in Ex. split_and!; [done|done|].
        intros j k' Hj. apply lookup_snoc_Some in Hj as [[_ Hj']|[_ <-]]; [|lia].
        exact (Hz _ _ Hj').
    + assert (Hw0 : (w k =? 0) = false) by (apply Nat.eqb_neq; lia).
      rewrite Hw0. cbn [orb].
      destruct ((0 <? w x) && (w x <? w k)) eqn:Ex.
      * apply andb_true_iff in Ex as [Ex1 Ex2].
        apply Nat.ltb_lt in Ex1, Ex2. right. exists (length l), x.
        split_and!; [done|done|done|by apply list_lookup_middle|].
        intros j k' Hj Hw. apply lookup_snoc_Some in Hj as [[Hj Hj']|[-> <-]]; [|lia].
        specialize (Hm _ _ Hj' Hw). lia.
      * right. exists i, k. split_and!; [done|done|done| |].
        -- apply lookup_app_l_Some. exact Hk.
        -- intros j k' Hj Hw. apply lookup_snoc_Some in Hj as [[Hj Hj']|[-> <-]].
           ++ exact (Hm _ _ Hj' Hw).
           ++ apply lookup_lt_Some in Hk.
              apply andb_false_iff in Ex as [Ex|Ex]; apply Nat.ltb_ge in Ex; lia.
Qed.

End ArgMin.

Lemma entropy_step_eq cm index lowest xy :
  entropy_step cm (index, lowest) xy =
  if (0 <? length (dom_at cm (fst xy) (snd xy))) &&
     ((lowest =? 0) || (length (dom_at cm (fst xy) (snd xy)) <? lowest))
  then (Some xy, length (dom_at cm (fst xy) (snd xy))) else (index, lowest).
Proof. by destruct xy as [x y]. Qed.

Lemma ring_entropy_step_eq index lowest (ic : nat * list nat) :
  ring_entropy_step (index, lowest) ic =
  if (0 <? length (snd ic)) && ((lowest =? 0) || (length (snd ic) <? lowest))
  then (Some (fst ic), length (snd ic)) else (index, lowest).
Proof. by destruct ic as [i c]. Qed.

Lemma raster_lookup_inv j x y :
  raster !! j = Some (x, y) ->
  j = x * CHUNK_TILE_LENGTH + y /\ x < CHUNK_TILE_LENGTH /\ y < CHUNK_TILE_LENGTH.
Proof.
  intros Hj. assert (Hr : (x, y) ∈ raster) by (by eapply list_elem_of_lookup_2).
  apply elem_of_raster in Hr as [Hx Hy]. split; [|done].
  eapply NoDup_lookup; [apply NoDup_raster|exact Hj|by apply raster_lookup].
Qed.

(** X2: the interior [lowest_entropy] returns [None] exactly when every
    domain is empty; otherwise it returns a cell with a nonempty domain of
    least size, the first such cell in the [x]-then-[y] scan. *)
Theorem lowest_entropy_first_minimum st :
  (lowest_entropy st = None <->
   forall x y, x < CHUNK_TILE_LENGTH -> y < CHUNK_TILE_LENGTH ->
     dom_at (constraint_map st) x y = []) /\
  forall x y, lowest_entropy st = Some (x, y) ->
    x < CHUNK_TILE_LENGTH /\ y < CHUNK_TILE_LENGTH /\ dom_at (constraint_map st) x y <> [] /\
    forall x' y', x' < CHUNK_TILE_LENGTH -> y' < CHUNK_TILE_LENGTH ->
      dom_at (constraint_map st) x' y' <> [] ->
      length (dom_at (constraint_map st) x y) <= length (dom_at (constraint_map st) x' y') /\
      (x' * CHUNK_TILE_LENGTH + y' < x * CHUNK_TILE_LENGTH + y ->
       length (dom_at (constraint_map st) x y) < length (dom_at (constraint_map st) x' y')).
Proof.
  set (w := fun xy : nat * nat => length (dom_at (constraint_map st) (fst xy) (snd xy))).
  pose proof (argmin_fold id w (entropy_step (constraint_map st))
                ltac:(intros; apply entropy_step_eq) raster) as Hinv.
  unfold lowest_entropy.
  destruct Hinv as [(Hn & _ & Hz)|(i & [x y] & Hs & _ & Hp & Hi & Hm)].
  - rewrite Hn. split.
    + split; [|done]. intros _ x y Hx Hy. apply length_zero_iff_nil.
      exact (Hz _ (x, y) (raster_lookup x y Hx Hy)).
    + intros x y [=].
  - unfold id in Hs. rewrite Hs. apply raster_lookup_inv in Hi as (-> & Hx & Hy). split.
    + split; [intros [=]|]. intros Hall. unfold w in Hp; cbn [fst snd] in Hp.
      rewrite Hall in Hp by done. cbn in Hp. lia.
    + intros x0 y0 [= <- <-]. unfold w in Hp; cbn [fst snd] in Hp.
      split_and!; [done|done|by intros E; rewrite E in Hp; cbn in Hp; lia|].
      intros x' y' Hx' Hy' Hne.
      assert (Hw : 0 < w (x', y')) by (unfold w; cbn [fst snd]; destruct (dom_at _ x' y'); [done|cbn; lia]).
      exact (Hm _ _ (raster_lookup x' y' Hx' Hy') Hw).
Qed.

Lemma lookup_zip_seq (cm : list (list nat)) j a d :
  zip (seq 0 (length cm)) cm !! j = Some (a, d) <-> a = j /\ cm !! j = Some d.
Proof.
  rewrite lookup_zip_Some, lookup_seq. split.
  - intros [[-> _] Hd]. done.
  - intros [-> Hd]. split; [|done]. split; [lia|]. by apply lookup_lt_Some in Hd.
Qed.

Lemma ring_lowest_entropy_argmin st :
  (ring_lowest_entropy st = None <->
   forall i d, s_constraint_map st !! i = Some d -> d = []) /\
  forall i, ring_lowest_entropy st = Some i ->
    exists d, s_constraint_map st !! i = Some d /\ d <> [] /\
      forall j d', s_constraint_map st !! j = Some d' -> d' <> [] ->
        length d <= length d' /\ (j < i -> length d < length d').
Proof.
  set (w := fun ic : nat * list nat => length (snd ic)).
  pose proof (argmin_fold fst w ring_entropy_step
                ltac:(intros; apply ring_entropy_step_eq)
                (zip (seq 0 (length (s_constraint_map st))) (s_constraint_map st))) as Hinv.
  unfold ring_lowest_entropy.
  destruct Hinv as [(Hn & _ & Hz)|(i & [a d] & Hs & _ & Hp & Hi & Hm)].
  - rewrite Hn. split.
    + split; [|done]. intros _ i d Hd. apply length_zero_iff_nil.
      apply (Hz i (i, d)). by apply lookup_zip_seq.
    + intros i [=].
  - cbn [fst] in Hs. rewrite Hs. apply lookup_zip_seq in Hi as [-> Hi]. unfold w in Hp; cbn [snd] in Hp. split.
    + split; [intros [=]|]. intros Hall. rewrite (Hall _ _ Hi) in Hp. cbn in Hp. lia.
    + intros i0 [= <-]. exists d. split_and!; [done|by intros ->; cbn in Hp; lia|].
      intros j d' Hj Hne.
      assert (Hw : 0 < w (j, d')) by (unfold w; cbn [snd]; destruct d'; [done|cbn; lia]).
      exact (Hm j (j, d') (proj2 (lookup_zip_seq _ _ _ _) (conj eq_refl Hj)) Hw).
Qed.

(** X3: the ring [lowest_entropy] returns [None] exactly when every
    constraint set is empty; otherwise the first index whose set is
    nonempty and of least size. *)
Theorem ring_lowest_entropy_first_minimum st :
  (ring_lowest_entropy st = None <->
   forall i d, s_constraint_map st !! i = Some d -> d = []) /\
  forall i, ring_lowest_entropy st = Some i ->
    exists d, s_constraint_map st !! i = Some d /\ d <> [] /\
      forall j d', s_constraint_map st !! j = Some d' -> d' <> [] ->
        length d <= length d' /\ (j < i -> length d < length d').
Proof. apply ring_lowest_entropy_argmin. Qed.

(** ** Chunk systems *)

Lemma coords_eq_transform_iff c tr :
  coords_eq_transform c tr = true <-> chunk_coords_of tr = c.
Proof.
  destruct c as [cx cy], tr as [tx ty]. unfold coords_eq_transform, chunk_coords_of.
  cbn [fst snd]. rewrite andb_true_iff, !Z.eqb_eq. split.
  - intros [-> ->]. done.
  - intros [= <- <-]. done.
Qed.

Lemma spawn_chunk_at hasher g rs sch c ch :
  spawn_chunk hasher g rs sch c = Done ch ->
  ch_translation ch = (fst c + CHUNK_SIZE / 2, snd c + CHUNK_SIZE / 2)%Z /\
  chunk_coords_of (ch_translation ch) = c /\ ch_dirty ch = true.
Proof.
  unfold spawn_chunk. destruct (generate _ _ _ _ _ _); try discriminate.
  intros [= <-]. cbn [ch_translation ch_dirty]. destruct c as [cx cy].
  unfold chunk_coords_of. cbn [fst snd]. split_and!; [done|f_equal; lia|done].
Qed.

Lemma snoc_split {A} (pre post l0 : list A) (ch x : A) :
  pre ++ ch :: post = l0 ++ [x] ->
  (post = [] /\ pre = l0 /\ ch = x) \/
  (exists post', post = post' ++ [x] /\ pre ++ ch :: post' = l0).
Proof.
  intros H. destruct (decide (post = [])) as [->|Hne].
  - left. apply app_inj_tail in H as [-> [= ->]]. done.
  - right. destruct (exists_last Hne) as [post' [y ->]].
    assert (H' : (pre ++ ch :: post') ++ [y] = l0 ++ [x])
      by (rewrite <- H; simpl; rewrite <- app_assoc; reflexivity).
    apply app_inj_tail in H' as [H' <-]. by exists post'.
Qed.

Section LastAt.

Variable f : Adjacencies -> ChunkEntity -> Adjacencies.
Variable field : Adjacencies -> option (list (Tile * Transform)).
Variable target : Coords.
Hypothesis Hf : forall adj ch,
  field (f adj ch) =
  if decide (chunk_coords_of (ch_translation ch) = target)
  then Some (get_chunk_tiles ch) else field adj.

Lemma fold_last_at world acc l :
  field (fold_left f world acc) = Some l <->
  last_chunk_at world target l \/
  (field acc = Some l /\
   Forall (fun ch' => chunk_coords_of (ch_translation ch') <> target) world).
Proof using Hf.
  induction world as [|x world IH] using rev_ind; cbn [fold_left].
  - split; [intros H; by right|].
    intros [(pre & ch & post & Hw & _)|[H _]]; [|done].
    by destruct pre.
  - rewrite fold_left_app. cbn [fold_left]. rewrite Hf, Forall_app, Forall_singleton.
    case_decide as Hx.
    + split.
      * intros [= <-]. left. exists world, x, []. done.
      * intros [(pre & ch & post & Hw & Hc & Hl & Hp)|[_ [_ Hn]]]; [|done].
        symmetry in Hw; apply snoc_split in Hw as [(-> & -> & ->)|(post' & -> & _)]; [by subst|].
        apply Forall_app in Hp as [_ Hp]. by inversion Hp.
    + rewrite IH. split.
      * intros [(pre & ch & post & Hw & Hc & Hl & Hp)|[Ha Hn]].
        -- left. exists pre, ch, (post ++ [x]). rewrite Hw, <- app_assoc.
           split_and!; [done|done|done|]. apply Forall_app. split; [done|by constructor].
        -- right. done.
      * intros [(pre & ch & post & Hw & Hc & Hl & Hp)|[Ha [Hn _]]].
        -- symmetry in Hw; apply snoc_split in Hw as [(-> & -> & ->)|(post' & -> & Hw)]; [done|].
           left. exists pre, ch, post'. apply Forall_app in Hp as [Hp _]. done.
        -- right. done.
Qed.

Lemma fold_none_at world acc :
  field (fold_left f world acc) = None <->
  field acc = None /\
  Forall (fun ch' => chunk_coords_of (ch_translation ch') <> target) world.
Proof using Hf.
  induction world as [|x world IH] using rev_ind; cbn [fold_left].
  - split; [intros H; split; [done|constructor]|by intros []].
  - rewrite fold_left_app. cbn [fold_left]. rewrite Hf, Forall_app, Forall_singleton.
    case_decide as Hx; [split; [done|intros (_ & _ & Hn); done]|].
    rewrite IH. tauto.
Qed.

End LastAt.

Ltac side_step :=
  let adj := fresh "adj" in let ch := fresh "ch" in
  let tx := fresh "tx" in let ty := fresh "ty" in
  intros adj ch; cbn beta zeta;
  destruct (chunk_coords_of (ch_translation ch)) as [tx ty];
  repeat match goal with c : (Z * Z)%type |- _ => destruct c as [? ?] end;
  cbn [fst snd];
  repeat match goal with |- context [Z.eqb ?a ?b] => destruct (Z.eqb_spec a b) end; cbn [andb];
  case_decide; cbn [adj_north adj_east adj_south adj_west];
  try reflexivity;
  exfalso;
  repeat match goal with H : (_, _) = (_, _) |- _ => injection H as ? ? end;
  unfold CHUNK_SIZE, TILE_SIZE, CHUNK_TILE_LENGTH in *; cbn [Z.of_nat Pos.of_succ_nat Pos.succ Z.mul] in *;
  first [lia | match goal with H : ~ (_, _) = (_, _) |- _ => apply H; f_equal; lia end].

Lemma get_connected_chunks_sides c world :
  let d := (CHUNK_SIZE + TILE_SIZE)%Z in
  let adj := get_connected_chunks c world in
  (forall l, adj_north adj = Some l <-> last_chunk_at world (fst c, snd c + d)%Z l) /\
  (forall l, adj_east adj = Some l <-> last_chunk_at world (fst c + d, snd c)%Z l) /\
  (forall l, adj_south adj = Some l <-> last_chunk_at world (fst c - d, snd c)%Z l) /\
  (forall l, adj_west adj = Some l <-> last_chunk_at world (fst c, snd c - d)%Z l) /\
  (adj_north adj = None <->
     Forall (fun ch => chunk_coords_of (ch_translation ch) <> (fst c, snd c + d)%Z) world) /\
  (adj_east adj = None <->
     Forall (fun ch => chunk_coords_of (ch_translation ch) <> (fst c + d, snd c)%Z) world) /\
  (adj_south adj = None <->
     Forall (fun ch => chunk_coords_of (ch_translation ch) <> (fst c - d, snd c)%Z) world) /\
  (adj_west adj = None <->
     Forall (fun ch => chunk_coords_of (ch_translation ch) <> (fst c, snd c - d)%Z) world).
Proof.
  cbv zeta. unfold get_connected_chunks.
  split_and!; try intros l;
    [rewrite (fold_last_at _ adj_north (fst c, snd c + (CHUNK_SIZE + TILE_SIZE))%Z)
    |rewrite (fold_last_at _ adj_east (fst c + (CHUNK_SIZE + TILE_SIZE), snd c)%Z)
    |rewrite (fold_last_at _ adj_south (fst c - (CHUNK_SIZE + TILE_SIZE), snd c)%Z)
    |rewrite (fold_last_at _ adj_west (fst c, snd c - (CHUNK_SIZE + TILE_SIZE))%Z)
    |rewrite (fold_none_at _ adj_north (fst c, snd c + (CHUNK_SIZE + TILE_SIZE))%Z)
    |rewrite (fold_none_at _ adj_east (fst c + (CHUNK_SIZE + TILE_SIZE), snd c)%Z)
    |rewrite (fold_none_at _ adj_south (fst c - (CHUNK_SIZE + TILE_SIZE), snd c)%Z)
    |rewrite (fold_none_at _ adj_west (fst c, snd c - (CHUNK_SIZE + TILE_SIZE))%Z)];
    try side_step; cbn [adj_north adj_east adj_south adj_west]; try tauto.
  all: split; [intros [|[? _]]; done|intros; by left].
Qed.

(** X4: [get_connected_chunks] sets a side to the tiles of the last chunk
    of the query at the offset it tests for that side ([None] when there
    is none); the side called south is at [x - 288] and the side called
    west at [y - 288]. *)
Theorem get_connected_chunks_spec c world :
  let d := (CHUNK_SIZE + TILE_SIZE)%Z in
  let adj := get_connected_chunks c world in
  (forall l, adj_north adj = Some l <-> last_chunk_at world (fst c, snd c + d)%Z l) /\
  (forall l, adj_east adj = Some l <-> last_chunk_at world (fst c + d, snd c)%Z l) /\
  (forall l, adj_south adj = Some l <-> last_chunk_at world (fst c - d, snd c)%Z l) /\
  (forall l, adj_west adj = Some l <-> last_chunk_at world (fst c, snd c - d)%Z l) /\
  (adj_north adj = None <->
     Forall (fun ch => chunk_coords_of (ch_translation ch) <> (fst c, snd c + d)%Z) world) /\
  (adj_east adj = None <->
     Forall (fun ch => chunk_coords_of (ch_translation ch) <> (fst c + d, snd c)%Z) world) /\
  (adj_south adj = None <->
     Forall (fun ch => chunk_coords_of (ch_translation ch) <> (fst c - d, snd c)%Z) world) /\
  (adj_west adj = None <->
     Forall (fun ch => chunk_coords_of (ch_translation ch) <> (fst c, snd c - d)%Z) world).
Proof. apply get_connected_chunks_sides. Qed.

Lemma create_chunks_spec hasher g rs a world cir spawned :
  create_chunks hasher g rs a world cir = Done spawned ->
  Forall2 (fun c ch => exists sch, a = Some sch /\ spawn_chunk hasher g rs sch c = Done ch)
    (filter (fun c => existsb (fun ch => coords_eq_transform c (ch_translation ch)) world = false)
            cir)
    spawned.
Proof.
  revert spawned. induction cir as [|c cir IH]; intros spawned H; cbn [create_chunks] in H.
  - injection H as <-. constructor.
  - rewrite filter_cons.
    destruct (existsb _ world) eqn:Ep.
    + rewrite decide_False by done. by apply IH.
    + rewrite decide_True by done. destruct a as [sch|]; [|discriminate].
      destruct (spawn_chunk hasher g rs sch c) as [ch| |] eqn:Es; try discriminate.
      destruct (create_chunks hasher g rs (Some sch) world cir) as [l| |] eqn:Er;
        try discriminate.
      injection H as <-. constructor; [by exists sch|by apply IH].
Qed.

Lemma create_chunks_all_present hasher g rs a world cir :
  forallb (fun c => existsb (fun ch => coords_eq_transform c (ch_translation ch)) world) cir
    = true ->
  create_chunks hasher g rs a world cir = Done [].
Proof.
  induction cir as [|c cir IH]; intros H; cbn [create_chunks]; [done|].
  cbn [forallb] in H. apply andb_true_iff in H as [H1 H2]. rewrite H1. by apply IH.
Qed.

(** X5: [create_chunks] spawns, in order, one dirty chunk at each
    coordinate in range that no chunk of the world occupies, repeated
    coordinates included, and nothing for the others. *)
Theorem create_chunks_spawns_missing hasher g rs sch world cir spawned :
  create_chunks hasher g rs (Some sch) world cir = Done spawned ->
  Forall2 (fun c ch => spawn_chunk hasher g rs sch c = Done ch /\
                       chunk_coords_of (ch_translation ch) = c /\ ch_dirty ch = true)
    (filter (fun c => existsb (fun ch => coords_eq_transform c (ch_translation ch)) world = false)
            cir)
    spawned.
Proof.
  intros H. apply create_chunks_spec in H. eapply Forall2_impl; [exact H|].
  intros c ch (sch' & [= <-] & Hs). split; [done|].
  apply spawn_chunk_at in Hs as (_ & Hc & Hd). done.
Qed.

(** X6: without the loaded schematic, [create_chunks] spawns nothing when
    every coordinate in range is occupied and panics otherwise. *)
Theorem create_chunks_unloaded hasher g rs world cir :
  create_chunks hasher g rs None world cir =
  if forallb (fun c => existsb (fun ch => coords_eq_transform c (ch_translation ch)) world) cir
  then Done [] else Panic.
Proof.
  induction cir as [|c cir IH]; cbn [create_chunks forallb]; [done|].
  destruct (existsb _ world); cbn [andb]; [exact IH|done].
Qed.

Lemma negb_forallb_negb {A} (f : A -> bool) l :
  negb (forallb (fun x => negb (f x)) l) = existsb f l.
Proof. induction l as [|x l IH]; cbn; [done|]. rewrite <- IH. by destruct (f x). Qed.

Lemma existsb_coords c world :
  existsb (fun ch => coords_eq_transform c (ch_translation ch)) world = true <->
  exists ch, ch ∈ world /\ chunk_coords_of (ch_translation ch) = c.
Proof.
  rewrite existsb_exists. setoid_rewrite coords_eq_transform_iff.
  setoid_rewrite list_elem_of_In. done.
Qed.

Lemma elem_of_remove_stale_chunks cir world ch :
  ch ∈ remove_stale_chunks cir world <->
  ch ∈ world /\ chunk_coords_of (ch_translation ch) ∈ cir.
Proof.
  unfold remove_stale_chunks. rewrite list_elem_of_filter.
  rewrite (negb_forallb_negb (fun c => coords_eq_transform c (ch_translation ch))).
  rewrite existsb_exists. setoid_rewrite coords_eq_transform_iff.
  split.
  - intros [(c & Hc & <-) Hw]. split; [done|]. by apply list_elem_of_In.
  - intros [Hw Hc]. split; [|done]. exists (chunk_coords_of (ch_translation ch)).
    split; [by apply list_elem_of_In|done].
Qed.

Lemma filter_all_true {A} (P : A -> Prop) `{!forall x, Decision (P x)} (l : list A) :
  (forall x, x ∈ l -> P x) -> filter P l = l.
Proof.
  induction l as [|x l IH]; intros Hall; [done|]. rewrite filter_cons.
  rewrite decide_True by (apply Hall; constructor). f_equal. apply IH.
  intros y Hy. apply Hall. by constructor.
Qed.


Lemma create_chunks_cover hasher g rs a world cir spawned :
  create_chunks hasher g rs a world cir = Done spawned ->
  (forall ch, ch ∈ spawned -> chunk_coords_of (ch_translation ch) ∈ cir) /\
  (forall c, c ∈ cir ->
     existsb (fun ch => coords_eq_transform c (ch_translation ch)) world = false ->
     exists ch, ch ∈ spawned /\ chunk_coords_of (ch_translation ch) = c).
Proof.
  intros H. apply create_chunks_spec in H. split.
  - intros ch Hch. apply list_elem_of_lookup_1 in Hch as [i Hi].
    destruct (Forall2_lookup_r _ _ _ _ _ H Hi) as (c & Hc & sch & _ & Hs).
    apply spawn_chunk_at in Hs as (_ & -> & _).
    apply list_elem_of_lookup_2 in Hc. by apply list_elem_of_filter in Hc as [_ ?].
  - intros c Hc Hn.
    assert (Hf : c ∈ filter (fun c => existsb (fun ch => coords_eq_transform c
                   (ch_translation ch)) world = false) cir)
      by (apply list_elem_of_filter; done).
    apply list_elem_of_lookup_1 in Hf as [i Hi].
    destruct (Forall2_lookup_l _ _ _ _ _ H Hi) as (ch & Hch & sch & _ & Hs).
    apply spawn_chunk_at in Hs as (_ & Hcc & _).
    exists ch. split; [by eapply list_elem_of_lookup_2|done].
Qed.

(** X8: a generation pass is idempotent: run again with the camera where it
    was, on the world it produced, it spawns and despawns nothing. *)
Theorem gen_chunks_idempotent hasher g rs assets world cam world' :
  gen_chunks hasher g rs assets world cam = Done world' ->
  gen_chunks hasher g rs assets world' cam = Done world'.
Proof.
  unfold gen_chunks. destruct assets as [| |sch]; [by intros [= ->]| |];
  (set (cir := get_chunks_in_range cam);
   destruct (create_chunks hasher g rs _ world cir) as [spawned| |] eqn:Hc;
   try discriminate; intros [= <-];
   destruct (create_chunks_cover _ _ _ _ _ _ _ Hc) as [Hsp Hmiss];
   assert (Hin : forall ch, ch ∈ remove_stale_chunks cir world ++ spawned ->
                 chunk_coords_of (ch_translation ch) ∈ cir)
     by (intros ch [Hk|Hs]%elem_of_app;
         [by apply elem_of_remove_stale_chunks in Hk as [_ ?]|by apply Hsp]);
   rewrite create_chunks_all_present;
   [ rewrite app_nil_r; f_equal; unfold remove_stale_chunks;
     apply filter_all_true; intros ch Hch;
     rewrite (negb_forallb_negb (fun c => coords_eq_transform c (ch_translation ch)));
     apply existsb_exists; exists (chunk_coords_of (ch_translation ch));
     split; [by apply list_elem_of_In, Hin|by apply coords_eq_transform_iff]
   | apply forallb_forall; intros c Hc'%list_elem_of_In;
     destruct (existsb (fun ch => coords_eq_transform c (ch_translation ch)) world) eqn:Hw;
     [ apply existsb_coords in Hw as (ch & Hch & Hcc);
       apply existsb_coords; exists ch; split; [|done];
       apply elem_of_app; left; apply elem_of_remove_stale_chunks; by rewrite Hcc
     | destruct (Hmiss c Hc' Hw) as (ch & Hch & Hcc);
       apply existsb_coords; exists ch; split; [|done];
       apply elem_of_app; by right ] ]).
Qed.

Lemma filter_none {A} (P : A -> Prop) `{!forall x, Decision (P x)} (l : list A) :
  (forall x, x ∈ l -> ~ P x) -> filter P l = [].
Proof.
  induction l as [|x l IH]; intros Hn; [done|]. rewrite filter_cons.
  rewrite decide_False by (apply Hn; constructor). apply IH.
  intros y Hy. apply Hn. by constructor.
Qed.

Lemma Forall2_coords_filter_length (o : Coords) (l : list Coords) (k : list ChunkEntity) :
  Forall2 (fun c ch => chunk_coords_of (ch_translation ch) = c) l k ->
  length (filter (fun ch => chunk_coords_of (ch_translation ch) = o) k)
  = length (filter (fun c => c = o) l).
Proof.
  induction 1 as [|c ch l k Hc _ IH]; [done|]. rewrite !filter_cons, Hc.
  case_decide; cbn; by rewrite IH.
Qed.

Lemma range_coords_nonzero cam c :
  c ∈ skipn 6 (get_chunks_in_range cam) -> c <> (0%Z, 0%Z).
Proof.
  unfold get_chunks_in_range. cbn [skipn repeat Z.to_nat Z.lxor]. intros Hc.
  apply list_elem_of_In, in_flat_map in Hc as (x & _ & Hc).
  apply in_map_iff in Hc as (y & <- & _). intros [= Hx _].
  unfold CHUNK_SIZE, TILE_SIZE, CHUNK_TILE_LENGTH in Hx. cbn in Hx. lia.
Qed.

(** X9: on a world with no chunk at [(0, 0)], a generation pass that
    succeeds leaves exactly six chunks at [(0, 0)]: one per placeholder
    entry of [get_chunks_in_range]. *)
Theorem gen_chunks_origin_six hasher g rs assets world cam world'
    (Hh : assets <> NoHandle)
    (Hw : Forall (fun ch => chunk_coords_of (ch_translation ch) <> (0%Z, 0%Z)) world) :
  gen_chunks hasher g rs assets world cam = Done world' ->
  length (filter (fun ch => chunk_coords_of (ch_translation ch) = (0%Z, 0%Z)) world') = 6.
Proof.
  unfold gen_chunks. destruct assets as [| |sch]; [done| |];
  (set (cir := get_chunks_in_range cam);
   destruct (create_chunks hasher g rs _ world cir) as [spawned| |] eqn:Hc;
   try discriminate; intros [= <-];
   apply create_chunks_spec in Hc;
   assert (H2 : Forall2 (fun c ch => chunk_coords_of (ch_translation ch) = c)
                  (filter (fun c => existsb (fun ch => coords_eq_transform c
                             (ch_translation ch)) world = false) cir) spawned)
     by (eapply Forall2_impl; [exact Hc|];
         intros c ch (s & _ & Hs); by apply spawn_chunk_at in Hs as (_ & ? & _));
   rewrite filter_app, length_app;
   rewrite (Forall2_coords_filter_length (0%Z, 0%Z) _ _ H2);
   rewrite list_filter_filter_l;
   [ rewrite filter_none;
     [ change cir with (repeat (0%Z, 0%Z) 6 ++ skipn 6 cir);
       rewrite filter_app, length_app;
       rewrite (filter_none _ (skipn 6 cir));
       [ done | intros c Hc' Hc0; by apply (range_coords_nonzero cam c) ]
     | intros ch Hch; apply elem_of_remove_stale_chunks in Hch as [Hch _];
       rewrite Forall_forall in Hw; by apply Hw ]
   | intros c ->; destruct (existsb _ world) eqn:He; [|done];
     apply existsb_coords in He as (ch & Hch & Hcc);
     rewrite Forall_forall in Hw; by destruct (Hw ch Hch) ]).
Qed.


Lemma init_stitching_dom rs sch adj i :
  ring_dom (init_stitching_constaints rs sch adj) i = [] \/
  ring_dom (init_stitching_constaints rs sch adj) i = hs_collect rs (sch_keys sch).
Proof.
  unfold ring_dom, init_stitching_constaints. rewrite map_fmap_eq, list_lookup_fmap.
  destruct (seq 0 RING_LENGTH !! i); cbn [fmap option_fmap option_map]; [|by left].
  repeat case_match; auto.
Qed.

Section StitchInv.

Variable tg : nat -> nat.
Variable cm0 : list (list nat).

Lemma stitch_loop_inv fuel k st st' k' :
  (length (s_tiles st) = RING_LENGTH /\
   (forall i, ring_dom (s_constraint_map st) i ⊆ ring_dom cm0 i) /\
   (forall i t, s_tiles st !! i = Some (Some t) -> t ∈ ring_dom cm0 i)) ->
  stitch_loop tg fuel k st = Done (st', k') ->
  (length (s_tiles st') = RING_LENGTH /\
   (forall i, ring_dom (s_constraint_map st') i ⊆ ring_dom cm0 i) /\
   (forall i t, s_tiles st' !! i = Some (Some t) -> t ∈ ring_dom cm0 i)) /\
  forall i d, s_constraint_map st' !! i = Some d -> d = [].
Proof.
  revert k st. induction fuel as [|fuel IH]; intros k st Hinv H; [discriminate|].
  rewrite stitch_loop_S in H.
  destruct (ring_lowest_entropy st) as [next|] eqn:Hl.
  - destruct (ring_collapse_tile tg k st next) as [t|] eqn:Hc; [|discriminate].
    destruct (stitcher_update _) as [st2|] eqn:Hu; [|discriminate].
    apply (IH (S k) st2); [|exact H].
    destruct Hinv as (Hlen & Hsub & Ht).
    assert (Htd : t ∈ ring_dom (s_constraint_map st) next).
    { unfold ring_collapse_tile in Hc. apply bind_Some in Hc as (r & _ & Hr).
      by eapply list_elem_of_lookup_2. }
    apply stitcher_update_spec in Hu as (Hts & _ & _ & Hcm).
    cbn [s_tiles s_constraint_map with_ring_tiles] in Hts, Hcm.
    split_and!.
    + rewrite Hts, length_insert. done.
    + intros i x Hx. apply (Hsub i). unfold ring_dom in Hx |- *.
      destruct (s_constraint_map st2 !! i) as [d'|] eqn:Hi; [|by apply not_elem_of_nil in Hx].
      destruct (Hcm i d' Hi) as (d & -> & Hd).
      apply update_ring_cell_subseteq in Hd. by apply Hd.
    + intros i t' Hi. rewrite Hts in Hi.
      apply list_lookup_insert_Some in Hi as [(<- & [= <-] & _)|(_ & Hi)].
      * by apply Hsub.
      * by apply (Ht i).
  - injection H as <- <-. split; [done|].
    exact (proj1 (proj1 (ring_lowest_entropy_argmin st)) Hl).
Qed.

End StitchInv.

(** X10: the result of stitching a chunk's ring: 36 cells, all constraint
    sets emptied, and a cell holds a tile only where the initial constraint
    was the full set of schematic identifiers (a neighbour on its side);
    that tile is one of them. *)
Theorem stitch_ring_tiles tg rs sch c chunk adj k st k' :
  stitch tg k (stitcher_init rs sch c chunk adj) = Done (st, k') ->
  length (s_tiles st) = RING_LENGTH /\
  (forall i d, s_constraint_map st !! i = Some d -> d = []) /\
  forall i t, s_tiles st !! i = Some (Some t) ->
    ring_dom (init_stitching_constaints rs sch adj) i = hs_collect rs (sch_keys sch) /\
    t ∈ sch_keys sch.
Proof.
  intros H. unfold stitch in H.
  apply (stitch_loop_inv tg (init_stitching_constaints rs sch adj)) in H
    as ((Hlen & _ & Ht) & Hempty).
  - split_and!; [done|done|]. intros i t Hi. apply Ht in Hi.
    destruct (init_stitching_dom rs sch adj i) as [E|E]; rewrite E in Hi.
    + by apply not_elem_of_nil in Hi.
    + split; [done|]. by apply elem_of_hs_collect in Hi as [? _].
  - split_and!.
    + cbn [s_tiles stitcher_init]. apply length_repeat'.
    + intros i. reflexivity.
    + intros i t Hi. cbn [s_tiles stitcher_init] in Hi.
      apply list_elem_of_lookup_2, list_elem_of_In, repeat_spec in Hi. discriminate.
Qed.

Lemma ring_children_none sch c edges :
  Forall (fun e => e = None) edges ->
  Forall (fun tt => texture_id (fst tt) = not_found sch) (ring_children sch c edges).
Proof.
  unfold ring_children. generalize (seq 0 (length edges)) as ns. intros ns He. revert ns.
  induction He as [|e edges -> _ IH]; intros [|n ns]; cbn; try constructor; [done|apply IH].
Qed.

(** X11: a dirty chunk with no chunk on any of its four sides is stitched
    without a draw of the thread RNG: its ring is 36 cells left empty, all
    spawned with the [not_found] texture. *)
Theorem stitch_chunk_isolated rs tg sch world k ch :
  let c := chunk_coords_of (ch_translation ch) in
  let d := (CHUNK_SIZE + TILE_SIZE)%Z in
  Forall (fun ch' => chunk_coords_of (ch_translation ch') ∉
            [(fst c, snd c + d); (fst c + d, snd c); (fst c - d, snd c); (fst c, snd c - d)]%Z)
         world ->
  stitch_chunk rs tg sch world k ch =
    Done ({| ch_translation := ch_translation ch;
             ch_children := ch_children ch ++ ring_children sch c (repeat None RING_LENGTH);
             ch_dirty := false |}, k) /\
  length (ring_children sch c (repeat None RING_LENGTH)) = RING_LENGTH /\
  Forall (fun tt => texture_id (fst tt) = not_found sch)
         (ring_children sch c (repeat None RING_LENGTH)).
Proof.
  cbv zeta. intros Hw. split_and!.
  - unfold stitch_chunk.
    pose proof (get_connected_chunks_sides (chunk_coords_of (ch_translation ch)) world)
      as (_ & _ & _ & _ & Hn & He & Hs & Hw').
    cbv zeta in Hn, He, Hs, Hw'.
    destruct (get_connected_chunks _ world) as [an ae as_ aw].
    cbn [adj_north adj_east adj_south adj_west] in *.
    rewrite (proj2 Hn), (proj2 He), (proj2 Hs), (proj2 Hw');
      try (eapply Forall_impl; [exact Hw|]; intros ch' Hn' E; apply Hn'; rewrite E;
           repeat constructor).
    reflexivity.
  - unfold ring_children. rewrite length_map, length_zip, length_seq, length_repeat'. lia.
  - apply ring_children_none, Forall_forall. intros e He%list_elem_of_In.
    by apply repeat_spec in He.
Qed.

Lemma interior_children_pos sch grid :
  map snd (interior_children sch grid) =
  map (fun xy => (Z.of_nat (fst xy) * TILE_SIZE + TILE_SIZE / 2 - CHUNK_SIZE / 2,
                  Z.of_nat (snd xy) * TILE_SIZE + TILE_SIZE / 2 - CHUNK_SIZE / 2)%Z) raster.
Proof. unfold interior_children. rewrite map_map. apply map_ext. by intros [x y]. Qed.

Lemma ring_children_pos sch c edges :
  length edges = RING_LENGTH ->
  map snd (ring_children sch c edges) =
  map (fun idx =>
         (fst (get_perimeter_world_coord (0, 0)%Z (Z.of_nat (idx / (CHUNK_TILE_LENGTH + 1)))
                                         (Z.of_nat (idx mod (CHUNK_TILE_LENGTH + 1))))
            + TILE_SIZE / 2 - CHUNK_SIZE / 2,
          snd (get_perimeter_world_coord (0, 0)%Z (Z.of_nat (idx / (CHUNK_TILE_LENGTH + 1)))
                                         (Z.of_nat (idx mod (CHUNK_TILE_LENGTH + 1))))
            + TILE_SIZE / 2 - CHUNK_SIZE / 2)%Z)
      (seq 0 RING_LENGTH).
Proof.
  intros Hl. unfold ring_children. rewrite map_map, <- Hl.
  assert (Hz : forall {B C} (h : nat -> C) (ns : list nat) (es : list B),
             length ns = length es -> map (fun it => h (fst it)) (zip ns es) = map h ns).
  { intros B C h ns. induction ns as [|n ns IH]; intros [|e es] Hne; try done.
    cbn. f_equal. apply IH. cbn in Hne. lia. }
  rewrite <- Hz with (es := edges) by (by rewrite length_seq).
  apply map_ext. intros [idx t]. cbn [fst snd].
  rewrite perimeter_shift. cbn [fst snd]. f_equal; lia.
Qed.

Lemma stitch_chunk_children rs tg sch world k ch ch' k' :
  stitch_chunk rs tg sch world k ch = Done (ch', k') ->
  exists edges, length edges = RING_LENGTH /\
    ch_translation ch' = ch_translation ch /\ ch_dirty ch' = false /\
    ch_children ch' = ch_children ch
                      ++ ring_children sch (chunk_coords_of (ch_translation ch)) edges.
Proof.
  unfold stitch_chunk. destruct (stitch _ _ _) as [[st k1]| |] eqn:Hs; try discriminate.
  intros [= <- _]. exists (s_tiles st). split_and!; try done.
  unfold stitch in Hs.
  apply (stitch_loop_inv tg (init_stitching_constaints rs sch
           (get_connected_chunks (chunk_coords_of (ch_translation ch)) world))) in Hs
    as ((Hlen & _) & _); [done|].
  split_and!.
  - cbn [s_tiles stitcher_init]. apply length_repeat'.
  - intros i. reflexivity.
  - intros i t Hi. cbn [s_tiles stitcher_init] in Hi.
    apply list_elem_of_lookup_2, list_elem_of_In, repeat_spec in Hi. discriminate.
Qed.

(** X12: a chunk spawned by [create_chunks] and then stitched has 100 tiles,
    one at each of the 10 by 10 tile positions centred on the chunk: the
    8 by 8 interior and the ring of 36 around it, none twice. *)
Theorem stitched_chunk_layout hasher g rs tg sch c world k ch ch' k' :
  spawn_chunk hasher g rs sch c = Done ch ->
  stitch_chunk rs tg sch world k ch = Done (ch', k') ->
  ch_translation ch' = (fst c + CHUNK_SIZE / 2, snd c + CHUNK_SIZE / 2)%Z /\
  length (ch_children ch') = (CHUNK_TILE_LENGTH + 2) * (CHUNK_TILE_LENGTH + 2) /\
  NoDup (map snd (ch_children ch')) /\
  forall p, p ∈ map snd (ch_children ch') <->
    exists i j, (-1 <= i <= Z.of_nat CHUNK_TILE_LENGTH)%Z /\
                (-1 <= j <= Z.of_nat CHUNK_TILE_LENGTH)%Z /\
      p = (TILE_SIZE * i + TILE_SIZE / 2 - CHUNK_SIZE / 2,
           TILE_SIZE * j + TILE_SIZE / 2 - CHUNK_SIZE / 2)%Z.
Proof.
  intros Hsp Hst.
  apply stitch_chunk_children in Hst as (edges & Hl & Htr & _ & Hch).
  unfold spawn_chunk in Hsp.
  destruct (generate _ _ _ _ _ _) as [grid| |]; try discriminate. injection Hsp as <-.
  cbn [ch_translation ch_children] in Htr, Hch.
  assert (Hpos : map snd (ch_children ch') =
    map (fun xy => (Z.of_nat (fst xy) * TILE_SIZE + TILE_SIZE / 2 - CHUNK_SIZE / 2,
                    Z.of_nat (snd xy) * TILE_SIZE + TILE_SIZE / 2 - CHUNK_SIZE / 2)%Z) raster
    ++ map (fun idx =>
         (fst (get_perimeter_world_coord (0, 0)%Z (Z.of_nat (idx / (CHUNK_TILE_LENGTH + 1)))
                                         (Z.of_nat (idx mod (CHUNK_TILE_LENGTH + 1))))
            + TILE_SIZE / 2 - CHUNK_SIZE / 2,
          snd (get_perimeter_world_coord (0, 0)%Z (Z.of_nat (idx / (CHUNK_TILE_LENGTH + 1)))
                                         (Z.of_nat (idx mod (CHUNK_TILE_LENGTH + 1))))
            + TILE_SIZE / 2 - CHUNK_SIZE / 2)%Z)
      (seq 0 RING_LENGTH)).
  { rewrite Hch, map_app, interior_children_pos, ring_children_pos by done. done. }
  split_and!.
  - done.
  - rewrite <- (length_map snd (ch_children ch')), Hpos. reflexivity.
  - rewrite Hpos. apply (bool_decide_unpack _). vm_compute. reflexivity.
  - intros p. rewrite Hpos. split.
    + assert (HF : Forall (fun p : Z * Z =>
                 (-1 <= (fst p + 112) / 32 <= 8)%Z /\ (-1 <= (snd p + 112) / 32 <= 8)%Z /\
                 p = (32 * ((fst p + 112) / 32) + 16 - 128,
                      32 * ((snd p + 112) / 32) + 16 - 128)%Z)
                 (map (fun xy => (Z.of_nat (fst xy) * TILE_SIZE + TILE_SIZE / 2 - CHUNK_SIZE / 2,
                    Z.of_nat (snd xy) * TILE_SIZE + TILE_SIZE / 2 - CHUNK_SIZE / 2)%Z) raster
                  ++ map (fun idx =>
         (fst (get_perimeter_world_coord (0, 0)%Z (Z.of_nat (idx / (CHUNK_TILE_LENGTH + 1)))
                                         (Z.of_nat (idx mod (CHUNK_TILE_LENGTH + 1))))
            + TILE_SIZE / 2 - CHUNK_SIZE / 2,
          snd (get_perimeter_world_coord (0, 0)%Z (Z.of_nat (idx / (CHUNK_TILE_LENGTH + 1)))
                                         (Z.of_nat (idx mod (CHUNK_TILE_LENGTH + 1))))
            + TILE_SIZE / 2 - CHUNK_SIZE / 2)%Z)
      (seq 0 RING_LENGTH)))
        by (apply (bool_decide_unpack _); vm_compute; reflexivity).
      intros Hp. rewrite Forall_forall in HF. destruct (HF p Hp) as (Hi & Hj & Hq).
      exists ((fst p + 112) / 32)%Z, ((snd p + 112) / 32)%Z. done.
    + intros (i & j & Hi & Hj & ->).
      assert (HF : Forall (fun i => Forall (fun j =>
                 (TILE_SIZE * i + TILE_SIZE / 2 - CHUNK_SIZE / 2,
                  TILE_SIZE * j + TILE_SIZE / 2 - CHUNK_SIZE / 2)%Z ∈
                 map (fun xy => (Z.of_nat (fst xy) * TILE_SIZE + TILE_SIZE / 2 - CHUNK_SIZE / 2,
                    Z.of_nat (snd xy) * TILE_SIZE + TILE_SIZE / 2 - CHUNK_SIZE / 2)%Z) raster
                  ++ map (fun idx =>
         (fst (get_perimeter_world_coord (0, 0)%Z (Z.of_nat (idx / (CHUNK_TILE_LENGTH + 1)))
                                         (Z.of_nat (idx mod (CHUNK_TILE_LENGTH + 1))))
            + TILE_SIZE / 2 - CHUNK_SIZE / 2,
          snd (get_perimeter_world_coord (0, 0)%Z (Z.of_nat (idx / (CHUNK_TILE_LENGTH + 1)))
                                         (Z.of_nat (idx mod (CHUNK_TILE_LENGTH + 1))))
            + TILE_SIZE / 2 - CHUNK_SIZE / 2)%Z)
      (seq 0 RING_LENGTH))
               (map (fun n => Z.of_nat n - 1)%Z (seq 0 10)))
               (map (fun n => Z.of_nat n - 1)%Z (seq 0 10)))
        by (apply (bool_decide_unpack _); vm_compute; reflexivity).
      assert (Hr : forall z, (-1 <= z <= Z.of_nat CHUNK_TILE_LENGTH)%Z ->
                     z ∈ map (fun n => Z.of_nat n - 1)%Z (seq 0 10)).
      { intros z Hz. change (Z.of_nat CHUNK_TILE_LENGTH) with 8%Z in Hz.
        apply list_elem_of_In, in_map_iff. exists (Z.to_nat (z + 1)).
        split; [lia|]. apply in_seq. lia. }
      rewrite Forall_forall in HF. specialize (HF i (Hr i Hi)).
      rewrite Forall_forall in HF. exact (HF j (Hr j Hj)).
Qed.

Lemma stitch_all_rel rs tg sch world k chunks l k' :
  stitch_all rs tg sch world k chunks = Done (l, k') ->
  Forall2 (fun ch ch' =>
             ch_translation ch' = ch_translation ch /\ ch_dirty ch' = false /\
             (ch_dirty ch = false -> ch' = ch) /\
             (ch_dirty ch = true -> exists ring, length ring = RING_LENGTH /\
                                     ch_children ch' = ch_children ch ++ ring))
          chunks l.
Proof.
  revert k l k'. induction chunks as [|ch rest IH]; intros k l k' H; cbn [stitch_all] in H.
  - injection H as <- _. constructor.
  - destruct (ch_dirty ch) eqn:Ed.
    + destruct (stitch_chunk rs tg sch world k ch) as [[ch' k1]| |] eqn:Es; try discriminate.
      destruct (stitch_all rs tg sch world k1 rest) as [[rest' k2]| |] eqn:Er; try discriminate.
      injection H as <- _. constructor; [|by eapply IH].
      apply stitch_chunk_children in Es as (edges & Hl & Ht & Hd & Hc).
      split_and!; [done|done|intros E; congruence|]. intros _.
      exists (ring_children sch (chunk_coords_of (ch_translation ch)) edges). split; [|done].
      unfold ring_children. rewrite length_map, length_zip, length_seq. lia.
    + destruct (stitch_all rs tg sch world k rest) as [[rest' k1]| |] eqn:Er; try discriminate.
      injection H as <- _. constructor; [|by eapply IH]. split_and!; try done. intros E; congruence.
Qed.

(** X13: with the schematic loaded, a stitching pass keeps every chunk in
    place and in order: clean chunks are left as they are; a dirty chunk
    keeps its translation and tiles, gets exactly 36 ring tiles appended
    and is no longer dirty. *)
Theorem gen_chunk_stitches_effect rs tg sch world k world' k' :
  gen_chunk_stitches rs tg (Loaded sch) world k = Done (world', k') ->
  Forall2 (fun ch ch' =>
             ch_translation ch' = ch_translation ch /\ ch_dirty ch' = false /\
             (ch_dirty ch = false -> ch' = ch) /\
             (ch_dirty ch = true -> exists ring, length ring = RING_LENGTH /\
                                     ch_children ch' = ch_children ch ++ ring))
          world world'.
Proof.
  unfold gen_chunk_stitches. destruct (forallb _ world) eqn:Hc.
  - intros [= <- _]. apply Forall2_same_length_lookup_2; [done|].
    intros i ch ch' Hi Hi'. rewrite Hi in Hi'. injection Hi' as <-.
    apply forallb_forall with (x := ch) in Hc; [|by eapply list_elem_of_In, list_elem_of_lookup_2].
    apply negb_true_iff in Hc. split_and!; try done. by rewrite Hc.
  - apply stitch_all_rel.
Qed.

(** ** Schematic loader *)

Lemma parse_digits_lt acc s n : acc < 256 -> parse_digits acc s = Some n -> n < 256.
Proof.
  revert acc. induction s as [|ch s IH]; intros acc Ha H; cbn [parse_digits] in H.
  { injection H as E. subst. done. }
  destruct (_ && _); [|discriminate].
  destruct (Nat.ltb_spec (acc * 10 + (Ascii.nat_of_ascii ch - 48)) 256); [|discriminate].
  eapply IH; [|exact H]. done.
Qed.

Lemma parse_u8_lt s n : parse_u8 s = Some n -> n < 256.
Proof.
  unfold parse_u8. destruct s as [|ch rest]; [discriminate|].
  assert (H0 : 0 < 256) by lia.
  destruct (_ =? 43); [destruct rest; [discriminate|]|];
    apply (parse_digits_lt 0 _ n H0).
Qed.

Lemma foldM_app {A B} (f : A -> B -> option A) l1 l2 a :
  foldM f (l1 ++ l2) a = (a' ← foldM f l1 a ; foldM f l2 a').
Proof.
  revert a. induction l1 as [|b l1 IH]; intros a; cbn; [done|].
  destruct (f a b); [apply IH|done].
Qed.

Lemma assoc_lookup_app {V} (m1 m2 : list (nat * V)) n :
  assoc_lookup (m1 ++ m2) n =
  match assoc_lookup m1 n with Some v => Some v | None => assoc_lookup m2 n end.
Proof.
  induction m1 as [|[k v] m1 IH]; cbn; [done|]. by destruct (Nat.eqb n k).
Qed.

Lemma assoc_lookup_None_keys {V} (m : list (nat * V)) n :
  assoc_lookup m n = None <-> n ∉ map fst m.
Proof.
  induction m as [|[k v] m IH]; cbn.
  - split; [intros _; apply not_elem_of_nil|done].
  - rewrite not_elem_of_cons. destruct (Nat.eqb_spec n k) as [->|Hne].
    + split; [discriminate|]. intros [? _]. done.
    + rewrite IH. tauto.
Qed.

Lemma existsb_keys {V} (m : list (nat * V)) k :
  existsb (fun kv => Nat.eqb (fst kv) k) m = true <-> k ∈ map fst m.
Proof.
  rewrite existsb_exists, list_elem_of_In, in_map_iff. split.
  - intros ([k' v] & Hin & Hk). apply Nat.eqb_eq in Hk. cbn in Hk. subst. by exists (k, v).
  - intros ([k' v] & Hk & Hin). cbn in Hk. subst. exists (k, v). split; [done|].
    apply Nat.eqb_refl.
Qed.

Lemma hm_replace_other {V} k (v : V) m n :
  n <> k ->
  assoc_lookup (map (fun kv => if Nat.eqb (fst kv) k then (k, v) else kv) m) n
  = assoc_lookup m n.
Proof.
  intros Hne. induction m as [|[k' v'] m IH]; cbn; [done|].
  destruct (Nat.eqb_spec k' k) as [->|Hk]; cbn.
  - apply Nat.eqb_neq in Hne. by rewrite Hne.
  - by rewrite IH.
Qed.

Lemma hm_insert_lookup {V} k (v : V) m n :
  assoc_lookup (hm_insert k v m) n = if Nat.eqb n k then Some v else assoc_lookup m n.
Proof.
  unfold hm_insert. destruct (existsb _ m) eqn:He.
  - induction m as [|[k' v'] m IH]; cbn in He |- *; [discriminate|].
    destruct (Nat.eqb_spec k' k) as [->|Hne]; cbn.
    + destruct (Nat.eqb_spec n k) as [->|Hn]; [done|]. by apply hm_replace_other.
    + rewrite IH by done. destruct (Nat.eqb_spec n k'), (Nat.eqb_spec n k); congruence.
  - rewrite assoc_lookup_app. cbn. destruct (Nat.eqb_spec n k) as [->|Hne].
    + assert (Hn : k ∉ map fst m) by (rewrite <- existsb_keys, He; discriminate).
      apply assoc_lookup_None_keys in Hn. by rewrite Hn.
    + by destruct (assoc_lookup m n).
Qed.

Lemma hm_insert_keys {V} k (v : V) m :
  NoDup (map fst m) ->
  NoDup (map fst (hm_insert k v m)) /\
  forall n, n ∈ map fst (hm_insert k v m) <-> n = k \/ n ∈ map fst m.
Proof.
  intros Hnd. unfold hm_insert. destruct (existsb _ m) eqn:He.
  - apply existsb_keys in He.
    assert (Hk : map fst (map (fun kv => if Nat.eqb (fst kv) k then (k, v) else kv) m)
                 = map fst m).
    { rewrite map_map. apply map_ext. intros [k' v']. cbn.
      by destruct (Nat.eqb_spec k' k). }
    rewrite Hk. split; [done|]. intros n. split; [by right|]. by intros [->|?].
  - assert (Hn : k ∉ map fst m) by (rewrite <- existsb_keys, He; discriminate).
    rewrite map_app. cbn. split.
    + apply NoDup_app. split_and!; [done| |by apply NoDup_singleton].
      intros x Hx ->%list_elem_of_singleton. done.
    + intros n. rewrite elem_of_app, list_elem_of_singleton. tauto.
Qed.

(** X14: a successful load copies [not_found] and maps each key that parses
    as a [u8] to the value of the last entry whose key parses to it: no
    key twice, every key below 256, and exactly the parsed keys. *)
Theorem schematic_load_spec nf data sch :
  schematic_load nf data = Some sch ->
  not_found sch = nf /\ NoDup (sch_keys sch) /\ Forall (fun n => n < 256) (sch_keys sch) /\
  (forall n, n ∈ sch_keys sch <-> exists kv, kv ∈ data /\ parse_u8 (fst kv) = Some n) /\
  (forall n v, sch_lookup sch n = Some v <->
     exists pre kv post, data = pre ++ kv :: post /\ parse_u8 (fst kv) = Some n /\
       snd kv = v /\ Forall (fun kv' => parse_u8 (fst kv') <> Some n) post).
Proof.
  unfold schematic_load. intros H. apply bind_Some in H as (cnv & Hf & [= <-]).
  unfold sch_keys, sch_lookup. cbn [not_found tiles].
  assert (Hkeys : forall n, n ∈ map fst cnv <->
                    exists kv, kv ∈ data /\ parse_u8 (fst kv) = Some n).
  { intros n. revert cnv Hf. induction data as [|x data IH] using rev_ind; intros cnv Hf.
    - injection Hf as <-. cbn. split; [by intros ?%not_elem_of_nil|].
      intros (kv & ?%not_elem_of_nil & _). done.
    - rewrite foldM_app in Hf. apply bind_Some in Hf as (m & Hm & Hx).
      cbn in Hx. destruct (parse_u8 (fst x)) as [k|] eqn:Hp; [|discriminate].
      injection Hx as <-.
      assert (Hnd : NoDup (map fst m)).
      { clear -Hm. revert m Hm. induction data as [|y data IH'] using rev_ind; intros m Hm.
        - injection Hm as <-. constructor.
        - rewrite foldM_app in Hm. apply bind_Some in Hm as (m' & Hm' & Hy).
          cbn in Hy. destruct (parse_u8 (fst y)); [|discriminate]. injection Hy as <-.
          apply hm_insert_keys. by apply IH'. }
      rewrite (proj2 (hm_insert_keys k (snd x) m Hnd)), (IH m Hm). split.
      + intros [->|(kv & Hkv & Hp')].
        * exists x. split; [|done]. apply elem_of_app. right. by apply list_elem_of_singleton.
        * exists kv. split; [|done]. apply elem_of_app. by left.
      + intros (kv & [Hkv|Hs%list_elem_of_singleton]%elem_of_app & Hp').
        * right. by exists kv.
        * left. subst kv. congruence. }
  assert (Hinv : NoDup (map fst cnv) /\
     forall n v, assoc_lookup cnv n = Some v <->
       exists pre kv post, data = pre ++ kv :: post /\ parse_u8 (fst kv) = Some n /\
         snd kv = v /\ Forall (fun kv' => parse_u8 (fst kv') <> Some n) post).
  { clear Hkeys. revert cnv Hf. induction data as [|x data IH] using rev_ind; intros cnv Hf.
    - injection Hf as <-. split; [constructor|]. intros n v. cbn. split; [discriminate|].
      intros (pre & kv & post & Hd & _). by destruct pre.
    - rewrite foldM_app in Hf. apply bind_Some in Hf as (m & Hm & Hx).
      cbn in Hx. destruct (parse_u8 (fst x)) as [k|] eqn:Hp; [|discriminate].
      injection Hx as <-. destruct (IH m Hm) as [Hnd IHl].
      split; [by apply hm_insert_keys|]. intros n v. rewrite hm_insert_lookup.
      destruct (Nat.eqb_spec n k) as [->|Hne].
      + split.
        * intros [= <-]. exists data, x, []. done.
        * intros (pre & kv & post & Hd & Hk & Hv & Hpost).
          symmetry in Hd. apply snoc_split in Hd as [(-> & -> & ->)|(post' & -> & _)];
            [by subst|].
          apply Forall_app in Hpost as [_ Hpost]. inversion Hpost. congruence.
      + rewrite IHl. split.
        * intros (pre & kv & post & Hd & Hk & Hv & Hpost).
          exists pre, kv, (post ++ [x]). rewrite Hd, <- app_assoc.
          split_and!; [done|done|done|]. apply Forall_app. split; [done|].
          constructor; [|constructor]. congruence.
        * intros (pre & kv & post & Hd & Hk & Hv & Hpost).
          symmetry in Hd. apply snoc_split in Hd as [(-> & -> & ->)|(post' & -> & Hd)];
            [congruence|].
          exists pre, kv, post'. apply Forall_app in Hpost as [Hpost _]. done. }
  destruct Hinv as [Hnd Hl]. split_and!; [done|done| |done|done].
  apply Forall_forall. intros n Hn. apply Hkeys in Hn as (kv & _ & Hp).
  by apply parse_u8_lt in Hp.
Qed.

(** X15: loading fails (the [unwrap] panics) exactly when some key does not
    parse as a [u8]. *)
Theorem schematic_load_fails nf data :
  schematic_load nf data = None <-> exists kv, kv ∈ data /\ parse_u8 (fst kv) = None.
Proof.
  unfold schematic_load.
  assert (H : forall m, foldM (fun m kv => k ← parse_u8 (fst kv) ; Some (hm_insert k (snd kv) m))
                              data m = None <->
                        exists kv, kv ∈ data /\ parse_u8 (fst kv) = None).
  { induction data as [|x data IH]; intros m; cbn.
    - split; [discriminate|]. intros (kv & ?%not_elem_of_nil & _). done.
    - destruct (parse_u8 (fst x)) eqn:Hp; cbn.
      + rewrite IH. split.
        * intros (kv & Hkv & Hk). exists kv. split; [by right|done].
        * intros (kv & [->|Hkv]%elem_of_cons & Hk); [congruence|]. by exists kv.
      + split; [intros _; exists x; split; [left|]; done|done]. }
  rewrite <- (H []). destruct (foldM _ data []); cbn; split; done.
Qed.

Lemma fold_digits_ge ds acc : acc <= fold_left (fun a d => a * 10 + d) ds acc.
Proof.
  revert acc. induction ds as [|d ds IH]; intros acc; cbn; [lia|].
  etrans; [|apply IH]. lia.
Qed.

Lemma nat_of_ascii_digit d : d < 10 -> Ascii.nat_of_ascii (Ascii.ascii_of_nat (48 + d)) = 48 + d.
Proof. intros Hd. apply Ascii.nat_ascii_embedding. lia. Qed.

Lemma parse_digits_fold acc ds :
  acc < 256 -> Forall (fun d => d < 10) ds ->
  parse_digits acc
    (fold_right (fun d s => String.String (Ascii.ascii_of_nat (48 + d)) s) String.EmptyString ds)
  = if fold_left (fun a d => a * 10 + d) ds acc <? 256
    then Some (fold_left (fun a d => a * 10 + d) ds acc) else None.
Proof.
  intros Ha Hds. revert acc Ha. induction Hds as [|d ds Hd _ IH]; intros acc Ha.
  - cbn [fold_right parse_digits fold_left]. destruct (Nat.ltb_spec acc 256); [done|lia].
  - cbn [fold_right parse_digits fold_left]. rewrite nat_of_ascii_digit by done.
    replace ((48 <=? 48 + d) && (48 + d <=? 57)) with true
      by (symmetry; apply andb_true_iff; split; apply Nat.leb_le; lia).
    replace (48 + d - 48) with d by lia.
    destruct (Nat.ltb_spec (acc * 10 + d) 256) as [Hlt|Hge]; [by apply IH|].
    pose proof (fold_digits_ge ds (acc * 10 + d)).
    destruct (Nat.ltb_spec (fold_left (fun a d => a * 10 + d) ds (acc * 10 + d)) 256); [lia|done].
Qed.

(** X16: [parse_u8] reads a nonempty string of decimal digits (leading zeros
    allowed) as its value when that value is below 256, and fails on it
    otherwise. *)
Theorem parse_u8_digits ds :
  ds <> [] -> Forall (fun d => d < 10) ds ->
  parse_u8
    (fold_right (fun d s => String.String (Ascii.ascii_of_nat (48 + d)) s) String.EmptyString ds)
  = if fold_left (fun a d => a * 10 + d) ds 0 <? 256
    then Some (fold_left (fun a d => a * 10 + d) ds 0) else None.
Proof.
  intros Hne Hds. destruct ds as [|d ds']; [done|].
  assert (Hd : d < 10) by (by inversion Hds).
  unfold parse_u8. cbn [fold_right]. rewrite nat_of_ascii_digit by done.
  replace (48 + d =? 43) with false by (symmetry; apply Nat.eqb_neq; lia).
  rewrite <- (parse_digits_fold 0 (d :: ds')) by (done || lia). done.
Qed.

(** Witness of the idempotence of [gen_chunks]. *)
Lemma gen_chunks_idempotent_witness :
  exists w,
    gen_chunks (fun z => z) (fun _ _ => 0) rs_ascending (Loaded sch_mono) [] (0%Q, 0%Q)
      = Done w /\
    gen_chunks (fun z => z) (fun _ _ => 0) rs_ascending (Loaded sch_mono) w (0%Q, 0%Q)
      = Done w.
Proof.
  let v := eval vm_compute in
    (gen_chunks (fun z => z) (fun _ _ => 0) rs_ascending (Loaded sch_mono) [] (0%Q, 0%Q)) in
  match v with
  | Done ?w =>
      assert (E : gen_chunks (fun z => z) (fun _ _ => 0) rs_ascending (Loaded sch_mono) []
                    (0%Q, 0%Q) = Done w) by (vm_compute; reflexivity);
      exists w; split; [exact E|]
  end.
  exact (gen_chunks_idempotent (fun z => z) (fun _ _ => 0) rs_ascending (Loaded sch_mono)
           [] (0%Q, 0%Q) _ E).
Defined.

(** Witness of the six chunks at the origin. *)
Lemma gen_chunks_origin_six_witness :
  exists w,
    gen_chunks (fun z => z) (fun _ _ => 0) rs_ascending (Loaded sch_mono) [] (0%Q, 0%Q)
      = Done w /\
    length (filter (fun ch => chunk_coords_of (ch_translation ch) = (0%Z, 0%Z)) w) = 6.
Proof.
  let v := eval vm_compute in
    (gen_chunks (fun z => z) (fun _ _ => 0) rs_ascending (Loaded sch_mono) [] (0%Q, 0%Q)) in
  match v with
  | Done ?w =>
      assert (E : gen_chunks (fun z => z) (fun _ _ => 0) rs_ascending (Loaded sch_mono) []
                    (0%Q, 0%Q) = Done w) by (vm_compute; reflexivity);
      exists w; split; [exact E|]
  end.
  assert (Hh : Loaded sch_mono <> NoHandle) by discriminate.
  exact (gen_chunks_origin_six (fun z => z) (fun _ _ => 0) rs_ascending (Loaded sch_mono)
           [] (0%Q, 0%Q) _ Hh (Forall_nil_2 _) E).
Defined.

(** Witness of [create_chunks_spawns_missing]. *)
Lemma create_chunks_spawns_missing_witness :
  exists spawned,
    create_chunks (fun z => z) (fun _ _ => 0) rs_ascending (Some sch_mono) []
      [(0%Z, 0%Z); (288%Z, 0%Z)] = Done spawned /\
    Forall2 (fun c ch => spawn_chunk (fun z => z) (fun _ _ => 0) rs_ascending sch_mono c = Done ch /\
                         chunk_coords_of (ch_translation ch) = c /\ ch_dirty ch = true)
      (filter (fun c => existsb (fun ch => coords_eq_transform c (ch_translation ch)) [] = false)
              [(0%Z, 0%Z); (288%Z, 0%Z)])
      spawned.
Proof.
  let v := eval vm_compute in
    (create_chunks (fun z => z) (fun _ _ => 0) rs_ascending (Some sch_mono) []
       [(0%Z, 0%Z); (288%Z, 0%Z)]) in
  match v with
  | Done ?sp =>
      assert (E : create_chunks (fun z => z) (fun _ _ => 0) rs_ascending (Some sch_mono) []
                    [(0%Z, 0%Z); (288%Z, 0%Z)] = Done sp) by (vm_compute; reflexivity);
      exists sp; split; [exact E|]
  end.
  exact (create_chunks_spawns_missing (fun z => z) (fun _ _ => 0) rs_ascending sch_mono []
           [(0%Z, 0%Z); (288%Z, 0%Z)] _ E).
Defined.

(** Witness of [stitch_ring_tiles]: a chunk with an empty chunk to its
    north. *)
Lemma stitch_ring_tiles_witness :
  exists st k',
    stitch (fun _ => 0) 0
      (stitcher_init rs_ascending sch_mono (0%Z, 0%Z) []
         {| adj_north := Some []; adj_east := None; adj_south := None; adj_west := None |})
      = Done (st, k') /\
    length (s_tiles st) = RING_LENGTH /\
    (forall i d, s_constraint_map st !! i = Some d -> d = []) /\
    forall i t, s_tiles st !! i = Some (Some t) ->
      ring_dom (init_stitching_constaints rs_ascending sch_mono
                  {| adj_north := Some []; adj_east := None; adj_south := None;
                     adj_west := None |}) i
        = hs_collect rs_ascending (sch_keys sch_mono) /\
      t ∈ sch_keys sch_mono.
Proof.
  let v := eval vm_compute in
    (stitch (fun _ => 0) 0
      (stitcher_init rs_ascending sch_mono (0%Z, 0%Z) []
         {| adj_north := Some []; adj_east := None; adj_south := None; adj_west := None |})) in
  match v with
  | Done (?st, ?k') =>
      assert (E : stitch (fun _ => 0) 0
                    (stitcher_init rs_ascending sch_mono (0%Z, 0%Z) []
                       {| adj_north := Some []; adj_east := None; adj_south := None;
                          adj_west := None |}) = Done (st, k'))
        by (vm_compute; reflexivity);
      exists st, k'; split; [exact E|]
  end.
  exact (stitch_ring_tiles (fun _ => 0) rs_ascending sch_mono (0%Z, 0%Z) []
           {| adj_north := Some []; adj_east := None; adj_south := None; adj_west := None |}
           0 _ _ E).
Defined.

(** Witness of [stitch_chunk_isolated]: a dirty chunk alone in the world. *)
Lemma stitch_chunk_isolated_witness :
  stitch_chunk rs_ascending (fun _ => 0) sch_mono [] 0
    {| ch_translation := (128%Z, 128%Z); ch_children := []; ch_dirty := true |}
  = Done ({| ch_translation := (128%Z, 128%Z);
             ch_children := [] ++ ring_children sch_mono (0%Z, 0%Z) (repeat None RING_LENGTH);
             ch_dirty := false |}, 0) /\
  length (ring_children sch_mono (0%Z, 0%Z) (repeat None RING_LENGTH)) = RING_LENGTH /\
  Forall (fun tt => texture_id (fst tt) = not_found sch_mono)
         (ring_children sch_mono (0%Z, 0%Z) (repeat None RING_LENGTH)).
Proof.
  exact (stitch_chunk_isolated rs_ascending (fun _ => 0) sch_mono [] 0
           {| ch_translation := (128%Z, 128%Z); ch_children := []; ch_dirty := true |}
           (Forall_nil_2 _)).
Defined.

(** Witness of [stitched_chunk_layout]: the chunk at the origin, spawned
    and stitched alone. *)
Lemma stitched_chunk_layout_witness :
  exists ch ch' k',
    spawn_chunk (fun z => z) (fun _ _ => 0) rs_ascending sch_mono (0%Z, 0%Z) = Done ch /\
    stitch_chunk rs_ascending (fun _ => 0) sch_mono [] 0 ch = Done (ch', k') /\
    length (ch_children ch') = (CHUNK_TILE_LENGTH + 2) * (CHUNK_TILE_LENGTH + 2) /\
    NoDup (map snd (ch_children ch')).
Proof.
  let v := eval vm_compute in
    (spawn_chunk (fun z => z) (fun _ _ => 0) rs_ascending sch_mono (0%Z, 0%Z)) in
  match v with
  | Done ?ch =>
      assert (E1 : spawn_chunk (fun z => z) (fun _ _ => 0) rs_ascending sch_mono (0%Z, 0%Z)
                   = Done ch) by (vm_compute; reflexivity);
      let v2 := eval vm_compute in (stitch_chunk rs_ascending (fun _ => 0) sch_mono [] 0 ch) in
      match v2 with
      | Done (?ch', ?k') =>
          assert (E2 : stitch_chunk rs_ascending (fun _ => 0) sch_mono [] 0 ch = Done (ch', k'))
            by (vm_compute; reflexivity);
          exists ch, ch', k';
          destruct (stitched_chunk_layout (fun z => z) (fun _ _ => 0) rs_ascending
                      (fun _ => 0) sch_mono (0%Z, 0%Z) [] 0 ch ch' k' E1 E2)
            as (_ & Hl & Hnd & _);
          exact (conj E1 (conj E2 (conj Hl Hnd)))
      end
  end.
Defined.

(** Witness of [gen_chunk_stitches_effect]: one dirty and one clean chunk. *)
Lemma gen_chunk_stitches_effect_witness :
  exists w k',
    gen_chunk_stitches rs_ascending (fun _ => 0) (Loaded sch_mono)
      [{| ch_translation := (128%Z, 128%Z); ch_children := []; ch_dirty := true |};
       {| ch_translation := (416%Z, 128%Z); ch_children := []; ch_dirty := false |}] 0
    = Done (w, k') /\
    Forall2 (fun ch ch' =>
               ch_translation ch' = ch_translation ch /\ ch_dirty ch' = false /\
               (ch_dirty ch = false -> ch' = ch) /\
               (ch_dirty ch = true -> exists ring, length ring = RING_LENGTH /\
                                       ch_children ch' = ch_children ch ++ ring))
      [{| ch_translation := (128%Z, 128%Z); ch_children := []; ch_dirty := true |};
       {| ch_translation := (416%Z, 128%Z); ch_children := []; ch_dirty := false |}] w.
Proof.
  let v := eval vm_compute in
    (gen_chunk_stitches rs_ascending (fun _ => 0) (Loaded sch_mono)
      [{| ch_translation := (128%Z, 128%Z); ch_children := []; ch_dirty := true |};
       {| ch_translation := (416%Z, 128%Z); ch_children := []; ch_dirty := false |}] 0) in
  match v with
  | Done (?w, ?k') =>
      assert (E : gen_chunk_stitches rs_ascending (fun _ => 0) (Loaded sch_mono)
        [{| ch_translation := (128%Z, 128%Z); ch_children := []; ch_dirty := true |};
         {| ch_translation := (416%Z, 128%Z); ch_children := []; ch_dirty := false |}] 0
        = Done (w, k')) by (vm_compute; reflexivity);
      exists w, k'; split; [exact E|]
  end.
  exact (gen_chunk_stitches_effect rs_ascending (fun _ => 0) sch_mono _ 0 _ _ E).
Defined.

(** Witness of [schematic_load_spec]: keys ["1"] and ["+01"] both parse to
    [1]; the later entry wins. *)
Lemma schematic_load_spec_witness :
  exists sch,
    schematic_load 0
      [(String.String (Ascii.ascii_of_nat 49) String.EmptyString, tile_schematic [0] [] [] []);
       (String.String (Ascii.ascii_of_nat 43)
          (String.String (Ascii.ascii_of_nat 48)
             (String.String (Ascii.ascii_of_nat 49) String.EmptyString)),
        tile_schematic [1] [] [] [])] = Some sch /\
    sch_keys sch = [1] /\ sch_lookup sch 1 = Some (tile_schematic [1] [] [] []).
Proof.
  let v := eval vm_compute in
    (schematic_load 0
      [(String.String (Ascii.ascii_of_nat 49) String.EmptyString, tile_schematic [0] [] [] []);
       (String.String (Ascii.ascii_of_nat 43)
          (String.String (Ascii.ascii_of_nat 48)
             (String.String (Ascii.ascii_of_nat 49) String.EmptyString)),
        tile_schematic [1] [] [] [])]) in
  match v with
  | Some ?sch =>
      assert (E : schematic_load 0
        [(String.String (Ascii.ascii_of_nat 49) String.EmptyString, tile_schematic [0] [] [] []);
         (String.String (Ascii.ascii_of_nat 43)
            (String.String (Ascii.ascii_of_nat 48)
               (String.String (Ascii.ascii_of_nat 49) String.EmptyString)),
          tile_schematic [1] [] [] [])] = Some sch) by (vm_compute; reflexivity);
      exists sch
  end.
  destruct (schematic_load_spec _ _ _ E) as (_ & _ & _ & _ & Hl).
  split; [exact E|]. split; [reflexivity|].
  apply Hl. eexists [_], _, []. split; [reflexivity|]. split; [vm_compute; reflexivity|].
  split; [reflexivity|constructor].
Defined.

(** Witness of [parse_u8_digits]: ["255"] parses, ["256"] does not. *)
Lemma parse_u8_digits_witness :
  parse_u8 (fold_right (fun d s => String.String (Ascii.ascii_of_nat (48 + d)) s)
              String.EmptyString [2; 5; 5]) = Some 255 /\
  parse_u8 (fold_right (fun d s => String.String (Ascii.ascii_of_nat (48 + d)) s)
              String.EmptyString [2; 5; 6]) = None.
Proof.
  assert (H1 : [2; 5; 5] <> []) by discriminate.
  assert (H2 : [2; 5; 6] <> []) by discriminate.
  split.
  - exact (parse_u8_digits [2; 5; 5] H1 ltac:(repeat constructor; lia)).
  - exact (parse_u8_digits [2; 5; 6] H2 ltac:(repeat constructor; lia)).
Defined.
